(** * Organisation matching and email-format inference

    A shallow embedding of
      - scripts/03_email_extraction/extract_email_formats.py
      - scripts/04_admin_processing/process_admin_emails.py
    and the properties of the key normaliser, the text format extractor,
    the source prioritiser, the facility matcher and the email generator.

    Modelling conventions.
      - A Python [str] is a [string]; the alphabet is ASCII.  Case mapping,
        whitespace and word characters are the ASCII ones (Python treats the
        code points 28 to 31 as whitespace, and so does the model).
        Characters above 127 are carried around unchanged.
      - A cell of a data frame is a [pyval]: [None], a float NaN, or a [str].
      - A function that returns [None] for "nothing" returns [option].
      - A Python [dict] whose iteration order is observed is an association
        list in insertion order; a [dict] that is only looked up is a [gmap].
      - scikit-learn's TF-IDF cosine similarity is a parameter of the matcher;
        its scores are rationals (every finite float is one). *)

From Stdlib Require Import Ascii String NArith ZArith QArith Lia.
From stdpp Require Import gmap strings list.

Close Scope Q_scope.

(* ================================================================== *)
(** * Python strings *)
(* ================================================================== *)

Module PyStr.

Local Open Scope char_scope.

Definition code (c : ascii) : N := N_of_ascii c.

Definition in_range (lo hi c : ascii) : bool :=
  ((code lo <=? code c) && (code c <=? code hi))%N.

Definition is_lower (c : ascii) : bool := in_range "a" "z" c.
Definition is_upper (c : ascii) : bool := in_range "A" "Z" c.
Definition is_digit (c : ascii) : bool := in_range "0" "9" c.

(** [c.upper()] and [c.lower()] of one character. *)
Definition char_upper (c : ascii) : ascii :=
  if is_lower c then ascii_of_N (code c - 32) else c.
Definition char_lower (c : ascii) : ascii :=
  if is_upper c then ascii_of_N (code c + 32) else c.

(** [c.isspace()]: tab, line feed, vertical tab, form feed, carriage
    return, the four separators 28..31 and the blank. *)
Definition is_space (c : ascii) : bool :=
  match c with
  | "009" | "010" | "011" | "012" | "013"
  | "028" | "029" | "030" | "031" | " " => true
  | _ => false
  end.

(** The regular expression class [\w]. *)
Definition is_word (c : ascii) : bool :=
  is_lower c || is_upper c || is_digit c || Ascii.eqb c "_".

Fixpoint map_chars (f : ascii -> ascii) (s : string) : string :=
  match s with
  | EmptyString => EmptyString
  | String c s' => String (f c) (map_chars f s')
  end.

(** [s.upper()], [s.lower()] *)
Definition upper : string -> string := map_chars char_upper.
Definition lower : string -> string := map_chars char_lower.

Definition is_empty (s : string) : bool :=
  match s with EmptyString => true | _ => false end.

(** Truth value of a [str]: [bool(s)]. *)
Definition truthy (s : string) : bool := negb (is_empty s).

Fixpoint lstrip (s : string) : string :=
  match s with
  | EmptyString => EmptyString
  | String c s' => if is_space c then lstrip s' else s
  end.

Fixpoint rstrip (s : string) : string :=
  match s with
  | EmptyString => EmptyString
  | String c s' =>
      let r := rstrip s' in
      if is_empty r && is_space c then EmptyString else String c r
  end.

(** [s.strip()] *)
Definition strip (s : string) : string := rstrip (lstrip s).

(** [s.split()]: the maximal runs of characters that are not whitespace. *)
Fixpoint split_ws (s : string) : list string :=
  match s with
  | EmptyString => []
  | String c s' =>
      if is_space c then split_ws s'
      else match s' with
           | EmptyString => [String c EmptyString]
           | String c' _ =>
               if is_space c' then String c EmptyString :: split_ws s'
               else match split_ws s' with
                    | w :: ws => String c w :: ws
                    | [] => [String c EmptyString]
                    end
           end
  end.

(** [sep.join(ws)] *)
Fixpoint join (sep : string) (ws : list string) : string :=
  match ws with
  | [] => EmptyString
  | [w] => w
  | w :: ws' => w +:+ sep +:+ join sep ws'
  end.

(** [s.split(c)] for a separator of one character: never empty. *)
Fixpoint split_char (sep : ascii) (s : string) : list string :=
  match s with
  | EmptyString => [EmptyString]
  | String c s' =>
      if Ascii.eqb c sep then EmptyString :: split_char sep s'
      else match split_char sep s' with
           | p :: ps => String c p :: ps
           | [] => [String c EmptyString]
           end
  end.

Fixpoint take (n : nat) (s : string) : string :=
  match n, s with
  | S n', String c s' => String c (take n' s')
  | _, _ => EmptyString
  end.

Fixpoint drop (n : nat) (s : string) : string :=
  match n, s with
  | S n', String _ s' => drop n' s'
  | _, _ => s
  end.

(** [sub in s] *)
Fixpoint contains (sub s : string) : bool :=
  String.prefix sub s ||
  match s with
  | EmptyString => false
  | String _ s' => contains sub s'
  end.

(** [c in s] for one character. *)
Fixpoint has_char (c : ascii) (s : string) : bool :=
  match s with
  | EmptyString => false
  | String x s' => Ascii.eqb x c || has_char c s'
  end.

(** [s.rfind(sep)]: the highest index at which [sep] occurs. *)
Fixpoint rfind (sep s : string) : option nat :=
  match s with
  | EmptyString => if is_empty sep then Some 0 else None
  | String _ s' =>
      match rfind sep s' with
      | Some i => Some (S i)
      | None => if String.prefix sep s then Some 0 else None
      end
  end.

(** [s.rsplit(sep, maxsplit)]: at most [maxsplit] cuts, rightmost first. *)
Fixpoint rsplit (sep : string) (maxsplit : nat) (s : string) : list string :=
  match maxsplit with
  | 0 => [s]
  | S n =>
      match rfind sep s with
      | None => [s]
      | Some i => rsplit sep n (take i s) ++ [drop (i + String.length sep) s]
      end
  end.

(** The scan of [s.replace(old, new)] for a non-empty [old]: [skip] counts
    the characters of an occurrence that are still to be passed over. *)
Fixpoint replace_scan (old new s : string) (skip : nat) : string :=
  match s with
  | EmptyString => EmptyString
  | String c s' =>
      match skip with
      | S n => replace_scan old new s' n
      | 0 =>
          if String.prefix old s
          then new +:+ replace_scan old new s' (String.length old - 1)
          else String c (replace_scan old new s' 0)
      end
  end.

Fixpoint intersperse (new s : string) : string :=
  match s with
  | EmptyString => EmptyString
  | String c s' => String c (new +:+ intersperse new s')
  end.

(** [s.replace(old, new)]: every occurrence, leftmost first, without
    overlap; an empty [old] matches between any two characters. *)
Definition replace (old new s : string) : string :=
  if is_empty old then new +:+ intersperse new s
  else replace_scan old new s 0.

(** [re.sub(r'[^a-z]', '', s)] *)
Fixpoint keep_lower (s : string) : string :=
  match s with
  | EmptyString => EmptyString
  | String c s' => if is_lower c then String c (keep_lower s') else keep_lower s'
  end.

End PyStr.

(* ================================================================== *)
(** * Regular expressions: the fragment of Python's [re] the scripts use *)
(* ================================================================== *)

Module Re.

Import PyStr.

(** The members of a bracketed class: a range, one character, or [\s]. *)
Inductive item : Type :=
| Range (lo hi : ascii)
| Chr (c : ascii)
| Space.

Definition charclass : Type := list item.

Definition item_has (i : item) (c : ascii) : bool :=
  match i with
  | Range lo hi => in_range lo hi c
  | Chr x => Ascii.eqb c x
  | Space => is_space c
  end.

Definition class_has (cls : charclass) (c : ascii) : bool :=
  existsb (fun i => item_has i c) cls.

(** Under [re.IGNORECASE] a class accepts a character when it holds its
    lower-case form or the upper-case form of that. *)
Definition class_matches (ic : bool) (cls : charclass) (c : ascii) : bool :=
  if ic
  then class_has cls (char_lower c) || class_has cls (char_upper (char_lower c))
  else class_has cls c.

Definition lit_matches (ic : bool) (l c : ascii) : bool :=
  if ic then Ascii.eqb (char_lower c) (char_lower l) else Ascii.eqb c l.

Inductive regex : Type :=
| Lit (s : string)                (* a run of literal characters *)
| Cls (cls : charclass)           (* [...] *)
| Rep (min : nat) (cls : charclass) (* greedy [...]{min,} *)
| WordB                           (* \b *)
| Cat (r1 r2 : regex)
| Alt (r1 r2 : regex)             (* r1|r2 *)
| Opt (r : regex)                 (* greedy (?:r)? *)
| Grp (r : regex).                (* capturing (r) *)

(** Where the matcher stands: the character before the position, the text
    from the position on, and the groups closed so far. *)
Record mstate : Type := MState {
  ms_prev : option ascii;
  ms_rest : string;
  ms_caps : list string
}.

Definition word_before (p : option ascii) : bool :=
  match p with Some c => is_word c | None => false end.

Definition word_after (s : string) : bool :=
  match s with String c _ => is_word c | EmptyString => false end.

Definition at_boundary (st : mstate) : bool :=
  xorb (word_before (ms_prev st)) (word_after (ms_rest st)).

Fixpoint run_lit (ic : bool) (l : string) (prev : option ascii) (s : string)
  : option (option ascii * string) :=
  match l with
  | EmptyString => Some (prev, s)
  | String a l' =>
      match s with
      | String c s' => if lit_matches ic a c then run_lit ic l' (Some c) s' else None
      | EmptyString => None
      end
  end.

(** Greedy repetition of a class: take as many characters as the class
    accepts, then give them back one at a time until the rest matches. *)
Fixpoint run_rep (ic : bool) (cls : charclass) (min : nat)
    (prev : option ascii) (s : string)
    (k : option ascii -> string -> option mstate) : option mstate :=
  let stop := match min with 0 => k prev s | S _ => None end in
  match s with
  | String c s' =>
      if class_matches ic cls c
      then match run_rep ic cls (pred min) (Some c) s' k with
           | Some r => Some r
           | None => stop
           end
      else stop
  | EmptyString => stop
  end.

(** Backtracking matcher in continuation-passing style: [k] is the rest of
    the pattern; alternatives are tried left to right. *)
Fixpoint run (ic : bool) (r : regex) (st : mstate)
    (k : mstate -> option mstate) : option mstate :=
  match r with
  | Lit l =>
      match run_lit ic l (ms_prev st) (ms_rest st) with
      | Some (p, s) => k (MState p s (ms_caps st))
      | None => None
      end
  | Cls cls =>
      match ms_rest st with
      | String c s' =>
          if class_matches ic cls c then k (MState (Some c) s' (ms_caps st)) else None
      | EmptyString => None
      end
  | Rep min cls =>
      run_rep ic cls min (ms_prev st) (ms_rest st)
              (fun p s => k (MState p s (ms_caps st)))
  | WordB => if at_boundary st then k st else None
  | Cat r1 r2 => run ic r1 st (fun st' => run ic r2 st' k)
  | Alt r1 r2 =>
      match run ic r1 st k with
      | Some res => Some res
      | None => run ic r2 st k
      end
  | Opt r1 =>
      match run ic r1 st k with
      | Some res => Some res
      | None => k st
      end
  | Grp r1 =>
      run ic r1 st (fun st' =>
        let n := String.length (ms_rest st) - String.length (ms_rest st') in
        k (MState (ms_prev st') (ms_rest st') (ms_caps st' ++ [take n (ms_rest st)])))
  end.

(** A match object: [m.group(0)] and [m.groups()]. *)
Record rmatch : Type := RMatch {
  m_text : string;
  m_groups : list string
}.

(** [m.group(i)] for [i >= 1]. *)
Definition group (i : nat) (m : rmatch) : string :=
  default EmptyString (m_groups m !! (i - 1)).

(** A match that starts at this very position. *)
Definition match_here (ic : bool) (r : regex) (prev : option ascii) (s : string)
  : option rmatch :=
  match run ic r (MState prev s []) Some with
  | Some st =>
      Some (RMatch (take (String.length s - String.length (ms_rest st)) s) (ms_caps st))
  | None => None
  end.

Fixpoint search_from (ic : bool) (r : regex) (prev : option ascii) (s : string)
  : option rmatch :=
  match match_here ic r prev s with
  | Some m => Some m
  | None =>
      match s with
      | String c s' => search_from ic r (Some c) s'
      | EmptyString => None
      end
  end.

(** [re.search(r, text, flags)]: the leftmost match. *)
Definition search (ic : bool) (r : regex) (text : string) : option rmatch :=
  search_from ic r None text.

(** The scan of [re.finditer]: after a match the search resumes where the
    match ended; [skip] counts the matched characters still to pass. *)
Fixpoint finditer_from (ic : bool) (r : regex) (prev : option ascii)
    (s : string) (skip : nat) : list rmatch :=
  match s with
  | EmptyString =>
      match skip with
      | 0 => match match_here ic r prev s with Some m => [m] | None => [] end
      | S _ => []
      end
  | String c s' =>
      match skip with
      | S n => finditer_from ic r (Some c) s' n
      | 0 =>
          match match_here ic r prev s with
          | Some m => m :: finditer_from ic r (Some c) s' (String.length (m_text m) - 1)
          | None => finditer_from ic r (Some c) s' 0
          end
      end
  end.

(** [re.finditer(r, text)]: the matches from left to right, without overlap. *)
Definition finditer (ic : bool) (r : regex) (text : string) : list rmatch :=
  finditer_from ic r None text 0.

Declare Scope regex_scope.
Delimit Scope regex_scope with re.
Bind Scope regex_scope with regex.
Infix "~>" := Cat (at level 60, right associativity) : regex_scope.

Definition star (cls : charclass) : regex := Rep 0 cls.
Definition plus (cls : charclass) : regex := Rep 1 cls.

End Re.

(* ================================================================== *)
(** * Cells of a data frame *)
(* ================================================================== *)

Inductive pyval : Type :=
| PNone
| PNaN
| PStr (s : string).

(** [pd.isna(v)] *)
Definition isna (v : pyval) : bool :=
  match v with PStr _ => false | _ => true end.

(** [str(v)] *)
Definition py_str (v : pyval) : string :=
  match v with
  | PNone => "None"
  | PNaN => "nan"
  | PStr s => s
  end.

(** [bool(v)]: [None] and the empty string are false, NaN is true. *)
Definition py_truthy (v : pyval) : bool :=
  match v with
  | PNone => false
  | PNaN => true
  | PStr s => PyStr.truthy s
  end.

(* ================================================================== *)
(** * extract_email_formats.py *)
(* ================================================================== *)

(** One extracted format: the dict the extractor appends.  [source_type] is
    the key the prioritiser adds afterwards. *)
Record email_format : Type := EmailFormat {
  ef_format : string;
  ef_domain : string;
  ef_example : string;
  ef_source : string;
  ef_confidence : string;
  ef_source_type : option string
}.

Module extract_email_formats.

Import PyStr Re.
Local Open Scope regex_scope.

Definition az : charclass := [Range "a" "z"].
(** [[a-z0-9\-\.]] *)
Definition dom : charclass := [Range "a" "z"; Range "0" "9"; Chr "-"; Chr "."].
Definition ws : charclass := [Space].
(** [[a-zA-Z0-9]] *)
Definition alnum : charclass := [Range "a" "z"; Range "A" "Z"; Range "0" "9"].
(** [[._-]] *)
Definition seps : charclass := [Chr "."; Chr "_"; Chr "-"].
(** [[a-zA-Z0-9.-]] *)
Definition host : charclass :=
  [Range "a" "z"; Range "A" "Z"; Range "0" "9"; Chr "."; Chr "-"].
(** [[a-zA-Z]] *)
Definition alpha : charclass := [Range "a" "z"; Range "A" "Z"].

(** [\s*\(ex\.\s*] *)
Definition ex_open : regex := star ws ~> Lit "(ex." ~> star ws.
(** [[a-z0-9\-\.]+\.[a-z]{2,}] *)
Definition domain_tld : regex := plus dom ~> Lit "." ~> Rep 2 az.
(** [(?:format is |pattern is )] *)
Definition format_is : regex := Alt (Lit "format is ") (Lit "pattern is ").
(** [(?:pattern of |format of )?] *)
Definition pattern_of : regex := Opt (Alt (Lit "pattern of ") (Lit "format of ")).

Definition bracket_patterns : list (regex * string) :=
  [ (Lit "[first].[last]" ~> ex_open ~>
       Grp (plus az ~> Lit "." ~> plus az ~> Lit "@" ~> plus dom), "[first].[last]");
    (Lit "[first]_[last]" ~> ex_open ~>
       Grp (plus az ~> Lit "_" ~> plus az ~> Lit "@" ~> plus dom), "[first]_[last]");
    (Lit "[first]-[last]" ~> ex_open ~>
       Grp (plus az ~> Lit "-" ~> plus az ~> Lit "@" ~> plus dom), "[first]-[last]");
    (Lit "[first_initial][last]" ~> ex_open ~>
       Grp (plus az ~> Lit "@" ~> plus dom), "[first_initial][last]");
    (Lit "[first][last_initial]" ~> ex_open ~>
       Grp (plus az ~> Lit "@" ~> plus dom), "[first][last_initial]");
    (format_is ~> Lit "[first]" ~> ex_open ~>
       Grp (plus az ~> Lit "@" ~> plus dom), "[first]");
    (format_is ~> Lit "[last]" ~> ex_open ~>
       Grp (plus az ~> Lit "@" ~> plus dom), "[last]") ].

Definition numbered_patterns : list (regex * string) :=
  [ (Lit "1." ~> plus ws ~> Grp (plus az) ~> Lit "." ~> Grp (plus az) ~> Lit "@" ~>
       Grp domain_tld ~> star ws ~> Lit "(", "[first].[last]");
    (Lit "1." ~> plus ws ~> Grp (plus az) ~> Lit "_" ~> Grp (plus az) ~> Lit "@" ~>
       Grp domain_tld ~> star ws ~> Lit "(", "[first]_[last]");
    (Lit "1." ~> plus ws ~> Grp (plus az) ~> Lit "-" ~> Grp (plus az) ~> Lit "@" ~>
       Grp domain_tld ~> star ws ~> Lit "(", "[first]-[last]");
    (Lit "1." ~> plus ws ~> Grp (Cls az) ~> Grp (Rep 2 az) ~> Lit "@" ~>
       Grp domain_tld ~> star ws ~> Lit "(", "[first_initial][last]");
    (Lit "1." ~> plus ws ~> Grp (Rep 2 az) ~> Lit "@" ~>
       Grp domain_tld ~> star ws ~> Lit "(", "[first]") ].

Definition leadiq_patterns : list (regex * string) :=
  [ (pattern_of ~> Lit "FLast@" ~> Grp domain_tld, "[first_initial][last]");
    (pattern_of ~> Lit "First.Last@" ~> Grp domain_tld, "[first].[last]");
    (pattern_of ~> Lit "First_Last@" ~> Grp domain_tld, "[first]_[last]");
    (pattern_of ~> Lit "First-Last@" ~> Grp domain_tld, "[first]-[last]");
    (pattern_of ~> Lit "FirstLast@" ~> Grp domain_tld, "[first][last]");
    (pattern_of ~> Lit "First@" ~> Grp domain_tld, "[first]") ].

(** [\b([a-zA-Z0-9]+(?:[._-][a-zA-Z0-9]+)?)@([a-zA-Z0-9.-]+\.[a-zA-Z]{2,})\b] *)
Definition email_pattern : regex :=
  WordB ~> Grp (plus alnum ~> Opt (Cls seps ~> plus alnum)) ~> Lit "@" ~>
  Grp (plus host ~> Lit "." ~> Rep 2 alpha) ~> WordB.

Definition infer_format_from_local_part (local_part : string) : option string :=
  if has_char "." local_part then
    let parts := split_char "." local_part in
    match parts with
    | [p0; p1] =>
        if (1 <? String.length p0) && (1 <? String.length p1)
        then Some "[first].[last]" else None
    | _ => None
    end
  else if has_char "_" local_part then
    let parts := split_char "_" local_part in
    match parts with
    | [p0; p1] =>
        if (1 <? String.length p0) && (1 <? String.length p1)
        then Some "[first]_[last]" else None
    | _ => None
    end
  else if has_char "-" local_part then
    let parts := split_char "-" local_part in
    match parts with
    | [p0; p1] =>
        if (1 <? String.length p0) && (1 <? String.length p1)
        then Some "[first]-[last]" else None
    | _ => None
    end
  else if 2 <? String.length local_part then
    if String.length local_part <=? 6
    then Some "[first_initial][last]"
    else Some "[first]"
  else None.

(** Pattern group 1: every bracket pattern that matches appends a dict. *)
Definition bracket_step (text source_link : string)
    (extracted : list email_format) (p : regex * string) : list email_format :=
  match search true p.1 text with
  | Some m =>
      let example_email := lower (group 1 m) in
      let domain :=
        if has_char "@" example_email
        then split_char "@" example_email !! 1
        else None in
      match domain with
      | Some d =>
          if truthy d
          then extracted ++ [EmailFormat p.2 d example_email source_link "high" None]
          else extracted
      | None => extracted
      end
  | None => extracted
  end.

Definition bracket_loop (text source_link : string)
    (extracted : list email_format) : list email_format :=
  foldl (bracket_step text source_link) extracted bracket_patterns.

(** The reconstructed example of pattern group 2.  The tags of
    [numbered_patterns] are the five tested here. *)
Definition numbered_example (format_name : string) (groups : list string)
    (domain : string) : string :=
  let g0 := default EmptyString (groups !! 0) in
  let g1 := default EmptyString (groups !! 1) in
  if String.eqb format_name "[first]" then g0 +:+ "@" +:+ domain
  else if String.eqb format_name "[first].[last]"
          || String.eqb format_name "[first]_[last]"
          || String.eqb format_name "[first]-[last]"
  then
    let sep := if String.eqb format_name "[first].[last]" then "."
               else if String.eqb format_name "[first]_[last]" then "_" else "-" in
    g0 +:+ sep +:+ g1 +:+ "@" +:+ domain
  else if String.eqb format_name "[first_initial][last]"
  then g0 +:+ g1 +:+ "@" +:+ domain
  else EmptyString.

Definition numbered_candidate (source_link : string) (format_name : string)
    (m : rmatch) : email_format :=
  let groups := m_groups m in
  let domain := default EmptyString (last groups) in
  let example_email := numbered_example format_name groups domain in
  EmailFormat format_name domain (lower example_email) source_link "high" None.

(** Pattern group 2: the loop leaves at the first pattern that matches. *)
Fixpoint numbered_loop_over (pats : list (regex * string)) (text source_link : string)
    (extracted : list email_format) : list email_format :=
  match pats with
  | [] => extracted
  | p :: pats' =>
      match search true p.1 text with
      | Some m => extracted ++ [numbered_candidate source_link p.2 m]
      | None => numbered_loop_over pats' text source_link extracted
      end
  end.

Definition numbered_loop : string -> string -> list email_format -> list email_format :=
  numbered_loop_over numbered_patterns.

Definition leadiq_example (format_name domain : string) : string :=
  if String.eqb format_name "[first_initial][last]" then "jdoe@" +:+ domain
  else if String.eqb format_name "[first].[last]" then "jane.doe@" +:+ domain
  else if String.eqb format_name "[first]_[last]" then "jane_doe@" +:+ domain
  else if String.eqb format_name "[first]-[last]" then "jane-doe@" +:+ domain
  else if String.eqb format_name "[first][last]" then "janedoe@" +:+ domain
  else if String.eqb format_name "[first]" then "jane@" +:+ domain
  else EmptyString.

(** Pattern group 3: every capitalised template that matches appends. *)
Definition leadiq_step (text source_link : string)
    (extracted : list email_format) (p : regex * string) : list email_format :=
  match search true p.1 text with
  | Some m =>
      let domain := lower (group 1 m) in
      extracted ++ [EmailFormat p.2 domain (leadiq_example p.2 domain) source_link "high" None]
  | None => extracted
  end.

Definition leadiq_loop (text source_link : string)
    (extracted : list email_format) : list email_format :=
  foldl (leadiq_step text source_link) extracted leadiq_patterns.

(** Pattern group 4: the matches of [email_pattern] from left to right; the
    loop leaves at the first one whose local part yields a format. *)
Fixpoint fallback_loop_over (ms : list rmatch) (source_link : string)
    (extracted : list email_format) : list email_format :=
  match ms with
  | [] => extracted
  | m :: ms' =>
      let local_part := lower (group 1 m) in
      let domain := lower (group 2 m) in
      match infer_format_from_local_part local_part with
      | Some inferred_format =>
          if truthy inferred_format
          then extracted ++ [EmailFormat inferred_format domain
                               (local_part +:+ "@" +:+ domain) source_link "medium" None]
          else fallback_loop_over ms' source_link extracted
      | None => fallback_loop_over ms' source_link extracted
      end
  end.

Definition fallback_loop (text source_link : string)
    (extracted : list email_format) : list email_format :=
  fallback_loop_over (finditer false email_pattern text) source_link extracted.

Definition extract_formats_from_text_improved (text source_link : string)
  : list email_format :=
  let extracted := [] in
  let extracted := bracket_loop text source_link extracted in
  let extracted := numbered_loop text source_link extracted in
  let extracted := leadiq_loop text source_link extracted in
  let extracted :=
    match extracted with
    | [] => fallback_loop text source_link extracted
    | _ => extracted
    end in
  extracted.

(** ** The source prioritiser *)

(** The parts of a Serper result the script reads.  A missing key is
    [None]; [d.get(key, '')] turns it into the empty string.  An
    [answerBox] or [results] that is missing or is the empty dict, both of
    which the script skips, is [None]. *)
Record answer_box : Type := AnswerBox {
  ab_snippet : option string;
  ab_link : option string
}.

Record organic_result : Type := Organic {
  or_link : option string;
  or_snippet : option string
}.

Record search_results : Type := SearchResults {
  sr_answerBox : option answer_box;
  sr_organic : option (list organic_result)
}.

Record entry : Type := Entry {
  en_facility : string;
  en_results : option search_results
}.

Definition with_source_type (f : email_format) (t : string) : email_format :=
  EmailFormat (ef_format f) (ef_domain f) (ef_example f) (ef_source f)
              (ef_confidence f) (Some t).

(** The base weight of an organic link. *)
Definition link_priority (link : string) : nat :=
  if contains "rocketreach.co" link then 80
  else if contains "leadiq.com" link then 70
  else if contains "contactout.com" link then 60
  else if contains "signalhire.com" link then 50
  else 0.

Definition organic_priority (position : nat) (link : string) : nat :=
  let priority := link_priority link in
  if position =? 0 then priority + 10 else priority.

(** The state of the search for the best match: [(best_match, best_priority)]. *)
Definition best : Type := option email_format * nat.

Definition answer_box_step (sr : search_results) (b : best) : best :=
  match sr_answerBox sr with
  | Some answer_box =>
      let snippet := default EmptyString (ab_snippet answer_box) in
      let link := default EmptyString (ab_link answer_box) in
      match extract_formats_from_text_improved snippet link with
      | f0 :: _ => (Some (with_source_type f0 "answerBox"), 100)
      | [] => b
      end
  | None => b
  end.

Definition organic_step (b : best) (position : nat) (organic : organic_result) : best :=
  let link := default EmptyString (or_link organic) in
  let snippet := default EmptyString (or_snippet organic) in
  let priority := organic_priority position link in
  if b.2 <? priority then
    match extract_formats_from_text_improved snippet link with
    | f0 :: _ => (Some (with_source_type f0 "organic"), priority)
    | [] => b
    end
  else b.

(** [for position, organic in enumerate(...)], from [position] on. *)
Fixpoint organic_loop (position : nat) (organics : list organic_result) (b : best) : best :=
  match organics with
  | [] => b
  | organic :: rest => organic_loop (S position) rest (organic_step b position organic)
  end.

(** The body of the loop over the entries, for one [search_results]. *)
Definition best_match_of (sr : search_results) : option email_format :=
  let b : best := (None, 0) in
  let b := answer_box_step sr b in
  let b :=
    if negb (bool_decide (is_Some b.1)) || (b.2 <? 90)
    then organic_loop 0 (default [] (sr_organic sr)) b
    else b in
  b.1.

Definition entry_step (email_formats : gmap string email_format) (e : entry)
  : gmap string email_format :=
  match en_results e with
  | None => email_formats
  | Some search_results =>
      match best_match_of search_results with
      | Some best_match => <[en_facility e := best_match]> email_formats
      | None => email_formats
      end
  end.

(** The argument is the list read from the results file. *)
Definition extract_formats_from_serper_results (results : list entry)
  : gmap string email_format :=
  foldl entry_step ∅ results.

(** ** The email generator *)

Definition generate_email (first_name last_name : pyval) (email_format domain : string)
  : option string :=
  if negb (py_truthy first_name) || negb (py_truthy last_name)
     || isna first_name || isna last_name
  then None
  else
    let first := lower (strip (py_str first_name)) in
    let last := lower (strip (py_str last_name)) in
    let first := keep_lower first in
    let last := keep_lower last in
    if negb (truthy first) || negb (truthy last) then None
    else
      let first_initial := take 1 first in
      let last_initial := take 1 last in
      if String.eqb email_format "[first].[last]"
      then Some (first +:+ "." +:+ last +:+ "@" +:+ domain)
      else if String.eqb email_format "[first_initial][last]"
      then Some (first_initial +:+ last +:+ "@" +:+ domain)
      else if String.eqb email_format "[first][last_initial]"
      then Some (first +:+ last_initial +:+ "@" +:+ domain)
      else if String.eqb email_format "[first]"
      then Some (first +:+ "@" +:+ domain)
      else if String.eqb email_format "[last]"
      then Some (last +:+ "@" +:+ domain)
      else if String.eqb email_format "[first]_[last]"
      then Some (first +:+ "_" +:+ last +:+ "@" +:+ domain)
      else if String.eqb email_format "[first]-[last]"
      then Some (first +:+ "-" +:+ last +:+ "@" +:+ domain)
      else if String.eqb email_format "[first][last]"
      then Some (first +:+ last +:+ "@" +:+ domain)
      else None.

(** ** Applying the formats to the doctor file *)

(** The columns of a row that the script reads. *)
Record csv_row : Type := CsvRow {
  csv_full_name_city_state : pyval;
  csv_first_name : pyval;      (* Provider First Name *)
  csv_last_name : pyval        (* Provider Last Name *)
}.

(** The columns the script adds. *)
Record csv_annotation : Type := CsvAnnotation {
  ca_generated_email : option string;
  ca_email_format_used : option string;
  ca_email_domain : option string;
  ca_email_source : option string;
  ca_email_confidence : option string
}.

(** [email_formats[key]] for [key in email_formats]; a cell that is not a
    string is no key of the table. *)
Definition formats_lookup (email_formats : gmap string email_format) (key : pyval)
  : option email_format :=
  match key with
  | PStr k => email_formats !! k
  | _ => None
  end.

(** The state of the loop over the rows: the annotated rows so far,
    [emails_generated] and [facilities_with_emails]. *)
Record apply_state : Type := ApplyState {
  as_rows : list csv_annotation;
  as_emails_generated : nat;
  as_facilities_with_emails : gset string
}.

Definition apply_step (email_formats : gmap string email_format)
    (st : apply_state) (row : csv_row) : apply_state :=
  let facility_key := csv_full_name_city_state row in
  let untouched := CsvAnnotation None None None None None in
  match formats_lookup email_formats facility_key with
  | Some format_info =>
      let email :=
        generate_email (csv_first_name row) (csv_last_name row)
          (ef_format format_info) (ef_domain format_info) in
      match email with
      | Some e =>
          if truthy e
          then ApplyState
                 (as_rows st ++
                  [CsvAnnotation (Some e) (Some (ef_format format_info))
                     (Some (ef_domain format_info))
                     (Some (default "unknown" (ef_source_type format_info)))
                     (Some (ef_confidence format_info))])
                 (as_emails_generated st + 1)
                 ({[py_str facility_key]} ∪ as_facilities_with_emails st)
          else ApplyState (as_rows st ++ [untouched])
                 (as_emails_generated st) (as_facilities_with_emails st)
      | None => ApplyState (as_rows st ++ [untouched])
                  (as_emails_generated st) (as_facilities_with_emails st)
      end
  | None => ApplyState (as_rows st ++ [untouched])
              (as_emails_generated st) (as_facilities_with_emails st)
  end.

(** The argument [rows] is the frame read from the doctor file. *)
Definition apply_formats_to_csv (rows : list csv_row)
    (email_formats : gmap string email_format) : apply_state :=
  foldl (apply_step email_formats) (ApplyState [] 0 ∅) rows.

End extract_email_formats.

(* ================================================================== *)
(** * process_admin_emails.py *)
(* ================================================================== *)

Module process_admin_emails.

Import PyStr.

(** ** The key normaliser *)

(** The [replacements] dict, in insertion order. *)
Definition replacements : list (string * string) :=
  [ (" INC.", " INC"); (" INC,", " INC");
    (" LLC.", " LLC"); (" LLC,", " LLC");
    (" P.C.", " PC"); (" P.C,", " PC");
    (" P.A.", " PA"); (" P.A,", " PA");
    (" L.L.C.", " LLC"); (" L.L.C", " LLC");
    (" L.P.", " LP"); (" PLLC.", " PLLC");
    (",", EmptyString); (".", EmptyString) ].

Definition apply_replacements (rs : list (string * string)) (name : string) : string :=
  foldl (fun name r => replace r.1 r.2 name) name rs.

Definition normalize_org_name (name : pyval) : string :=
  if isna name then EmptyString
  else
    let name := strip (upper (py_str name)) in
    let name := apply_replacements replacements name in
    join " " (split_ws name).

(** [str(v).upper().strip()], or the empty string when [pd.isna(v)]. *)
Definition upper_strip_or_empty (v : pyval) : string :=
  if isna v then EmptyString else strip (upper (py_str v)).

Definition create_facility_key (org_name city state : pyval) : option string :=
  let org_name := normalize_org_name org_name in
  let city := upper_strip_or_empty city in
  let state := upper_strip_or_empty state in
  if truthy org_name && truthy city && truthy state
  then Some (org_name +:+ ", " +:+ city +:+ ", " +:+ state)
  else None.

(** ** The format table *)

(** A value of the loaded table: [{'original_key': key, **value}]. *)
Record format_info : Type := FormatInfo {
  original_key : string;
  fi_record : email_format
}.

(** A [dict] with [str] keys whose order is observed. *)
Fixpoint dict_get {V : Type} (d : list (string * V)) (k : string) : option V :=
  match d with
  | [] => None
  | (k', v) :: d' => if String.eqb k' k then Some v else dict_get d' k
  end.

(** [d[k] = v]: a present key keeps its place, a new one goes last. *)
Fixpoint dict_set {V : Type} (d : list (string * V)) (k : string) (v : V)
  : list (string * V) :=
  match d with
  | [] => [(k, v)]
  | (k', v') :: d' =>
      if String.eqb k' k then (k', v) :: d' else (k', v') :: dict_set d' k v
  end.

Definition load_step (normalized_formats : list (string * format_info))
    (kv : string * email_format) : list (string * format_info) :=
  let key := kv.1 in
  match rsplit ", " 2 key with
  | [org; city; state] =>
      match create_facility_key (PStr org) (PStr city) (PStr state) with
      | Some normalized_key =>
          if truthy normalized_key
          then dict_set normalized_formats normalized_key (FormatInfo key kv.2)
          else normalized_formats
      | None => normalized_formats
      end
  | _ => normalized_formats
  end.

(** The argument is the object read from the formats file. *)
Definition load_email_formats (formats : list (string * email_format))
  : list (string * format_info) :=
  foldl load_step [] formats.

(** ** The email generator *)

Definition generate_email (first_name last_name : pyval) (email_format domain : string)
  : option string :=
  if negb (py_truthy first_name) || negb (py_truthy last_name)
     || isna first_name || isna last_name
  then None
  else
    let first := lower (strip (py_str first_name)) in
    let last := lower (strip (py_str last_name)) in
    let first := keep_lower first in
    let last := keep_lower last in
    if negb (truthy first) || negb (truthy last) then None
    else
      let first_initial := take 1 first in
      let last_initial := take 1 last in
      if String.eqb email_format "[first].[last]"
      then Some (first +:+ "." +:+ last +:+ "@" +:+ domain)
      else if String.eqb email_format "[first_initial][last]"
      then Some (first_initial +:+ last +:+ "@" +:+ domain)
      else if String.eqb email_format "[first][last_initial]"
      then Some (first +:+ last_initial +:+ "@" +:+ domain)
      else if String.eqb email_format "[first]"
      then Some (first +:+ "@" +:+ domain)
      else if String.eqb email_format "[last]"
      then Some (last +:+ "@" +:+ domain)
      else if String.eqb email_format "[first]_[last]"
      then Some (first +:+ "_" +:+ last +:+ "@" +:+ domain)
      else if String.eqb email_format "[first]-[last]"
      then Some (first +:+ "-" +:+ last +:+ "@" +:+ domain)
      else if String.eqb email_format "[first][last]"
      then Some (first +:+ last +:+ "@" +:+ domain)
      else None.

(** ** The facility matcher *)

(** An element of a location bucket: [{'key': key, 'org_name': org}]. *)
Record candidate : Type := Candidate {
  cand_key : string;
  cand_org_name : string
}.

Record FacilityMatcher : Type := {
  email_formats : list (string * format_info);
  threshold : Q;
  facilities_by_location : gmap string (list candidate)
}.

Definition init_step (by_location : gmap string (list candidate)) (key : string)
  : gmap string (list candidate) :=
  match rsplit ", " 2 key with
  | [org; city; state] =>
      let location := city +:+ ", " +:+ state in
      let by_location :=
        match by_location !! location with
        | None => <[location := []]> by_location
        | Some _ => by_location
        end in
      <[location := default [] (by_location !! location) ++ [Candidate key org]]>
        by_location
  | _ => by_location
  end.

Definition FacilityMatcher__init__ (email_formats : list (string * format_info))
    (threshold : Q) : FacilityMatcher :=
  {| email_formats := email_formats;
     threshold := threshold;
     facilities_by_location := foldl init_step ∅ (map fst email_formats) |}.

(** The dict [match_facility] returns. *)
Record match_result : Type := MatchResult {
  matched_key : string;
  mr_match_type : string;
  mr_match_score : Q;
  mr_format_info : format_info
}.

(** [np.argmax]: the first index of the largest entry. *)
Fixpoint argmax_from (best_idx : nat) (best : Q) (i : nat) (l : list Q) : nat :=
  match l with
  | [] => best_idx
  | x :: l' =>
      if Qle_bool x best
      then argmax_from best_idx best (S i) l'
      else argmax_from i x (S i) l'
  end.

Definition argmax (l : list Q) : nat :=
  match l with
  | [] => 0
  | x :: l' => argmax_from 0 x 1 l'
  end.

(** Tier 2: the first candidate whose stored name equals the input's.
    Its key comes from the table, so the lookup finds it. *)
Fixpoint fuzzy_exact (formats : list (string * format_info))
    (normalized_org : string) (candidates : list candidate) : option match_result :=
  match candidates with
  | [] => None
  | c :: rest =>
      if String.eqb normalized_org (cand_org_name c)
      then match dict_get formats (cand_key c) with
           | Some fi => Some (MatchResult (cand_key c) "fuzzy_exact" 1 fi)
           | None => None
           end
      else fuzzy_exact formats normalized_org rest
  end.

Record row : Type := Row {
  row_org_name : pyval;     (* Provider Organization Name (Legal Business Name) *)
  row_city : pyval;         (* Provider Business Practice Location Address City Name *)
  row_state : pyval;        (* Provider Business Practice Location Address State Name *)
  row_first_name : pyval;   (* Authorized Official First Name *)
  row_last_name : pyval     (* Authorized Official Last Name *)
}.

Record record_result : Type := RecordResult {
  idx : nat;
  facility_key : option string;
  matched_facility : option string;
  match_type : option string;
  match_score : option Q;
  generated_email : option string;
  email_format_used : option string;
  email_domain : option string
}.

(** [bool(v)] of a value that is [None] or a [str]. *)
Definition opt_truthy (v : option string) : bool :=
  match v with Some s => truthy s | None => false end.

Section Matching.

(** scikit-learn, for the documents [all_names]: entry [i] of
    [cosine_similarity(tfidf_matrix[0:1], tfidf_matrix[1:])], the cosine
    of the character 2- and 3-gram TF-IDF vectors of [all_names[0]] and
    [all_names[i + 1]]. *)
Variable tfidf_cosine : list string -> nat -> Q.

Definition similarities (all_names : list string) : list Q :=
  map (tfidf_cosine all_names) (seq 0 (length all_names - 1)).

(** Tier 3, for a bucket that is not empty. *)
Definition tfidf_tier (self : FacilityMatcher) (normalized_org : string)
    (candidates : list candidate) : option match_result :=
  let candidate_names := map cand_org_name candidates in
  let all_names := normalized_org :: candidate_names in
  let sims := similarities all_names in
  let best_idx := argmax sims in
  let best_score := default 0%Q (sims !! best_idx) in
  if Qle_bool (threshold self) best_score then
    match candidates !! best_idx with
    | Some matched_candidate =>
        match dict_get (email_formats self) (cand_key matched_candidate) with
        | Some fi => Some (MatchResult (cand_key matched_candidate) "tfidf" best_score fi)
        | None => None
        end
    | None => None
    end
  else None.

Definition match_facility (self : FacilityMatcher) (org_name city state : pyval)
  : option match_result :=
  let exact_key := create_facility_key org_name city state in
  match exact_key ≫= (fun k => pair k <$> dict_get (email_formats self) k) with
  | Some (k, fi) => Some (MatchResult k "exact" 1 fi)
  | None =>
      let location :=
        strip (upper (py_str city)) +:+ ", " +:+ strip (upper (py_str state)) in
      match facilities_by_location self !! location with
      | None => None
      | Some candidates =>
          let normalized_org := normalize_org_name org_name in
          match fuzzy_exact (email_formats self) normalized_org candidates with
          | Some r => Some r
          | None =>
              if length candidates =? 0 then None
              else tfidf_tier self normalized_org candidates
          end
      end
  end.

(** ** One provider record *)

Definition process_single_record (row_data : nat * row)
    (email_formats : list (string * format_info)) (threshold : Q) : record_result :=
  let '(idx, row) := row_data in
  let org_name := row_org_name row in
  let city := row_city row in
  let state := row_state row in
  let first_name := row_first_name row in
  let last_name := row_last_name row in
  let facility_key := create_facility_key org_name city state in
  let result := RecordResult idx facility_key None None None None None None in
  if negb (opt_truthy facility_key) then result
  else
    let matcher := FacilityMatcher__init__ email_formats threshold in
    match match_facility matcher org_name city state with
    | Some match_result =>
        let format_info := mr_format_info match_result in
        let email :=
          generate_email first_name last_name
            (ef_format (fi_record format_info)) (ef_domain (fi_record format_info)) in
        if opt_truthy email
        then RecordResult idx facility_key
               (Some (matched_key match_result))
               (Some (mr_match_type match_result))
               (Some (mr_match_score match_result))
               email
               (Some (ef_format (fi_record format_info)))
               (Some (ef_domain (fi_record format_info)))
        else RecordResult idx facility_key
               (Some (matched_key match_result))
               (Some (mr_match_type match_result))
               (Some (mr_match_score match_result))
               None None None
    | None => result
    end.

(** ** The batch *)







End Matching.

End process_admin_emails.

(* ================================================================== *)
(** * Vocabulary of the properties, and sample data *)
(* ================================================================== *)

Import PyStr.
Import extract_email_formats.
Import process_admin_emails.

(** The alphabetic characters of a string, in order. *)
Fixpoint letters (s : string) : string :=
  match s with
  | EmptyString => EmptyString
  | String c s' => if is_lower c || is_upper c then String c (letters s') else letters s'
  end.

(** A name as the generator uses it: its letters, in lower case. *)
Definition cleaned (v : pyval) : string := lower (letters (py_str v)).

(** The templates of the glossary and the local part each one renders. *)
Definition templates : list (string * (string -> string -> string)) :=
  [ ("[first].[last]", fun first last => first +:+ "." +:+ last);
    ("[first_initial][last]", fun first last => take 1 first +:+ last);
    ("[first][last_initial]", fun first last => first +:+ take 1 last);
    ("[first]", fun first last => first);
    ("[last]", fun first last => last);
    ("[first]_[last]", fun first last => first +:+ "_" +:+ last);
    ("[first]-[last]", fun first last => first +:+ "-" +:+ last);
    ("[first][last]", fun first last => first +:+ last) ].

(** The tags of the glossary. *)
Definition recognized_formats : list string := map fst templates.

(** A table of two facilities of Springfield, a similarity that favours the
    second candidate, and a constant similarity. *)
Definition acme_record : email_format :=
  EmailFormat "[first].[last]" "acme.com" "jane.doe@acme.com" "https://rocketreach.co/acme"
              "high" (Some "answerBox").

Definition springfield_table : list (string * format_info) :=
  [ ("ACME HEALTH, SPRINGFIELD, IL", FormatInfo "Acme Health, Springfield, IL" acme_record);
    ("ACME HEALTH INC, SPRINGFIELD, IL",
     FormatInfo "Acme Health Inc, Springfield, IL" acme_record) ].

Definition favour_second (all_names : list string) (i : nat) : Q :=
  match i with 0 => 9 # 10 | _ => 99 # 100 end.

Definition constant_score (q : Q) (all_names : list string) (i : nat) : Q := q.

Definition springfield_bucket : list candidate :=
  [ Candidate "ACME HEALTH, SPRINGFIELD, IL" "ACME HEALTH";
    Candidate "ACME HEALTH INC, SPRINGFIELD, IL" "ACME HEALTH INC" ].

(** The similarity tier on the Springfield table, for a constant score. *)
Definition threshold_boundary_statement (score : Q) : Prop :=
  let self := FacilityMatcher__init__ springfield_table (85 # 100) in
  let sims := similarities (constant_score score)
                ("ACME HELTH" :: map cand_org_name springfield_bucket) in
  exists best_idx best_score matched fi,
    sims !! best_idx = Some best_score
    /\ Forall (fun x => (x <= best_score)%Q) sims
    /\ (forall j x, j < best_idx -> sims !! j = Some x -> (x < best_score)%Q)
    /\ springfield_bucket !! best_idx = Some matched
    /\ dict_get springfield_table (cand_key matched) = Some fi
    /\ ((85 # 100 <= best_score)%Q ->
        match_facility (constant_score score) self
          (PStr "Acme Helth") (PStr "Springfield") (PStr "IL")
        = Some (MatchResult (cand_key matched) "tfidf" best_score fi))
    /\ ((best_score < 85 # 100)%Q ->
        match_facility (constant_score score) self
          (PStr "Acme Helth") (PStr "Springfield") (PStr "IL") = None).

(** A record whose organisation is misspelt, and one whose first name has
    no letters. *)
Definition unmatched_row : row :=
  Row (PStr "Acme Helth") (PStr "Springfield") (PStr "IL") (PStr "Jane") (PStr "Doe").

Definition nameless_row : row :=
  Row (PStr "Acme Health") (PStr "Springfield") (PStr "IL") (PStr "1234") (PStr "Doe").

(** What the extractor finds in an answer box and in an organic result. *)
Definition answer_box_formats (ab : answer_box) : list email_format :=
  extract_formats_from_text_improved
    (default EmptyString (ab_snippet ab)) (default EmptyString (ab_link ab)).

Definition organic_formats (o : organic_result) : list email_format :=
  extract_formats_from_text_improved
    (default EmptyString (or_snippet o)) (default EmptyString (or_link o)).

(** Neither the answer box nor any organic result yields a format. *)
Definition yields_nothing (sr : search_results) : Prop :=
  (forall ab, sr_answerBox sr = Some ab -> answer_box_formats ab = [])
  /\ Forall (fun o => organic_formats o = []) (default [] (sr_organic sr)).

(** A facility with an answer box and a top organic result, and a facility
    whose only snippet holds no address. *)
Definition acme_entry : entry :=
  Entry "Acme Health, Springfield, IL"
    (Some (SearchResults
       (Some (AnswerBox
          (Some "The email format is [first].[last] (ex. jane.doe@acme.com).")
          (Some "https://rocketreach.co/acme")))
       (Some [Organic (Some "https://rocketreach.co/acme-email")
                      (Some "1. jdoe@acme.com (80%)")]))).

Definition quiet_entry : entry :=
  Entry "Quiet Clinic, Dover, DE"
    (Some (SearchResults None
       (Some [Organic (Some "https://example.org/quiet") (Some "No addresses here.")]))).

(** The four pattern groups, each run on its own. *)
Definition bracket_group (text source_link : string) : list email_format :=
  bracket_loop text source_link [].
Definition numbered_group (text source_link : string) : list email_format :=
  numbered_loop text source_link [].
Definition leadiq_group (text source_link : string) : list email_format :=
  leadiq_loop text source_link [].
Definition fallback_group (text source_link : string) : list email_format :=
  fallback_loop text source_link [].

(** The extractor as the specification words it: the groups are tried in
    order and the first one that yields candidates is the result. *)
Definition first_group_that_yields (text source_link : string) : list email_format :=
  match bracket_group text source_link with
  | (_ :: _) as g => g
  | [] =>
      match numbered_group text source_link with
      | (_ :: _) as g => g
      | [] =>
          match leadiq_group text source_link with
          | (_ :: _) as g => g
          | [] => fallback_group text source_link
          end
      end
  end.

(** Sample snippets. *)
Definition bracket_and_numbered_text : string :=
  "The format is [first].[last] (ex. jane.doe@acme.com). 1. jdoe@acme.com (80%)".

Definition numbered_template_text : string := "1. first.last@acme.com (60%)".

Definition ranked_text : string :=
  "1. jdoe@acme.com (80%)
2. jane.doe@acme.com (20%)".

(** The candidate the fallback group builds from a match of [email_pattern]. *)
Definition fallback_candidate (source_link inferred_format : string) (m : Re.rmatch)
  : email_format :=
  let local_part := lower (Re.group 1 m) in
  let domain := lower (Re.group 2 m) in
  EmailFormat inferred_format domain (local_part +:+ "@" +:+ domain)
              source_link "medium" None.

Definition two_emails_text : string := "Write to ab@x.com or jane.doe@acme.com.".

(** The specification's reading: the candidate is built from the first match of
    [email_pattern] in the text. *)
Definition built_from_first_email (text : string) (c : email_format) : Prop :=
  exists m later,
    Re.finditer false email_pattern text = m :: later
    /\ ef_example c = lower (Re.group 1 m) +:+ "@" +:+ lower (Re.group 2 m).

Fixpoint all_chars (P : ascii -> Prop) (s : string) : Prop :=
  match s with
  | EmptyString => True
  | String c s' => P c /\ all_chars P s'
  end.

(** A word: not empty and free of whitespace. *)
Definition word (w : string) : Prop :=
  w <> EmptyString /\ all_chars (fun c => is_space c = false) w.

(** Empty, or beginning with a character that is not whitespace. *)
Definition starts_clean (s : string) : Prop :=
  match s with
  | EmptyString => True
  | String c _ => is_space c = false
  end.

(** Empty, or beginning with whitespace. *)
Definition starts_blank (s : string) : Prop :=
  match s with
  | EmptyString => True
  | String c _ => is_space c = true
  end.

(** What every normalised name looks like. *)
Record normal_name (y : string) : Prop := {
  nn_upper : all_chars (fun c => char_upper c = c) y;
  nn_no_dot : all_chars (fun c => c <> "."%char) y;
  nn_no_comma : all_chars (fun c => c <> ","%char) y;
  nn_words : exists ws, Forall word ws /\ y = join " " ws
}.

(** The location and the stored name that [__init__] reads off a key. *)
Definition parse_key (key : string) : option (string * string) :=
  match rsplit ", " 2 key with
  | [org; city; state] => Some (city +:+ ", " +:+ state, org)
  | _ => None
  end.

(** The keys filed under a location, in the order of the table. *)
Fixpoint bucket_of (keys : list string) (location : string) : list candidate :=
  match keys with
  | [] => []
  | key :: keys' =>
      match parse_key key with
      | Some (loc, org) =>
          if String.eqb loc location
          then Candidate key org :: bucket_of keys' location
          else bucket_of keys' location
      | None => bucket_of keys' location
      end
  end.

(** The location [match_facility] computes for a city and a state. *)
Definition location_of (city state : pyval) : string :=
  strip (upper (py_str city)) +:+ ", " +:+ strip (upper (py_str state)).

(** The key under which [load_email_formats] stores the entry of a key. *)
Definition normalized_key (key : string) : option string :=
  match rsplit ", " 2 key with
  | [org; city; state] => create_facility_key (PStr org) (PStr city) (PStr state)
  | _ => None
  end.

(** The number of elements of a list that pass a test. *)
Fixpoint count_where {A : Type} (p : A -> bool) (l : list A) : nat :=
  match l with
  | [] => 0
  | x :: l' => (if p x then 1 else 0) + count_where p l'
  end.





(** What every extracted format is: a tag of the glossary, from the given
    link, not yet marked with a source type. *)
Definition fresh_candidate (source_link : string) (c : email_format) : Prop :=
  ef_format c ∈ recognized_formats
  /\ ef_source c = source_link
  /\ ef_source_type c = None.

(** What every stored format is. *)
Definition stored_format (f : email_format) : Prop :=
  ef_format f ∈ recognized_formats
  /\ (ef_source_type f = Some "answerBox" \/ ef_source_type f = Some "organic")
  /\ (ef_confidence f = "high" \/ ef_confidence f = "medium").

(** The templates that write a separator between the two names. *)
Definition separator_templates : list (string * ascii) :=
  [ ("[first].[last]", "."%char); ("[first]_[last]", "_"%char);
    ("[first]-[last]", "-"%char) ].

(** A character of a rendered local part. *)
Definition local_part_char (c : ascii) : Prop :=
  is_lower c = true \/ c = "."%char \/ c = "_"%char \/ c = "-"%char.

(** The columns [apply_formats_to_csv] leaves in a row. *)
Definition annotation_of (email_formats : gmap string email_format) (row : csv_row)
  : csv_annotation :=
  match formats_lookup email_formats (csv_full_name_city_state row) with
  | Some format_info =>
      match extract_email_formats.generate_email (csv_first_name row) (csv_last_name row)
              (ef_format format_info) (ef_domain format_info) with
      | Some e =>
          CsvAnnotation (Some e) (Some (ef_format format_info))
            (Some (ef_domain format_info))
            (Some (default "unknown" (ef_source_type format_info)))
            (Some (ef_confidence format_info))
      | None => CsvAnnotation None None None None None
      end
  | None => CsvAnnotation None None None None None
  end.

(** The row has an address. *)
Definition annotated (a : csv_annotation) : bool :=
  bool_decide (is_Some (ca_generated_email a)).

(** Sample data: a formats file, a results object with organic entries only,
    and rows of the doctor file. *)
Definition sample_formats : list (string * email_format) :=
  [ ("Acme Health, Inc., Springfield, IL", acme_record);
    ("No commas here", acme_record) ].


Definition sample_csv_rows : list csv_row :=
  [ CsvRow (PStr "Acme Health, Springfield, IL") (PStr "Jane") (PStr "Doe");
    CsvRow (PStr "Quiet Clinic, Dover, DE") (PStr "John") (PStr "Roe");
    CsvRow PNaN (PStr "Ann") (PStr "Poe") ].


(** What the loop of [load_email_formats] keeps true of the table. *)
Definition loaded_from (formats : list (string * email_format))
    (table : list (string * format_info)) : Prop :=
  NoDup (map fst table)
  /\ (forall k fi, dict_get table k = Some fi ->
        normalized_key (original_key fi) = Some k
        /\ (original_key fi, fi_record fi) ∈ formats).

(** A cell that is missing or holds whitespace only. *)
Definition blank_cell (v : pyval) : Prop :=
  isna v = true \/ all_chars (fun c => is_space c = true) (py_str v).

(** A numbered list whose rank-1 entry joins an initial and a surname and
    whose rank-11 entry is dotted: the first line, and the whole text. *)
Definition rank_one_line : string := "1. jdoe@acme.com (80%)".

Definition rank_eleven_text : string :=
  "1. jdoe@acme.com (80%)
11. jane.doe@acme.com (20%)".

(* ================================================================== *)
(** * Properties *)
(* ================================================================== *)

(** Suffix variants collapse to one key. *)
Example suffix_collapsing :
  create_facility_key (PStr "Acme Health, Inc.") (PStr "Springfield") (PStr "IL")
  = Some "ACME HEALTH INC, SPRINGFIELD, IL"
  /\ create_facility_key (PStr "Acme Health Inc") (PStr "Springfield") (PStr "IL")
     = Some "ACME HEALTH INC, SPRINGFIELD, IL".
Proof. split; vm_compute; reflexivity. Qed.

(** ** Characters *)

(** Case analysis on the 256 characters. *)
Ltac each_char c :=
  destruct c as [[] [] [] [] [] [] [] []]; vm_compute;
  try reflexivity; try discriminate; try tauto.

Lemma is_lower_char_lower c : is_lower (char_lower c) = is_lower c || is_upper c.
Proof. each_char c. Qed.

(** ** Strings *)

Lemma app_cons_str x (a b : string) : String x a +:+ b = String x (a +:+ b).
Proof. reflexivity. Qed.

Lemma app_nil_l_str (a : string) : EmptyString +:+ a = a.
Proof. reflexivity. Qed.

Lemma app_assoc_str (a b c : string) : (a +:+ b) +:+ c = a +:+ b +:+ c.
Proof.
  induction a as [|x a IH]; [reflexivity|]. rewrite !app_cons_str. now rewrite IH.
Qed.

Lemma app_nil_r_str (a : string) : a +:+ EmptyString = a.
Proof.
  induction a as [|x a IH]; [reflexivity|]. rewrite app_cons_str. now rewrite IH.
Qed.

Lemma length_app_str (a b : string) :
  String.length (a +:+ b) = String.length a + String.length b.
Proof.
  induction a as [|x a IH]; [reflexivity|]. rewrite app_cons_str. cbn. now rewrite IH.
Qed.

(** ** The email generator *)

Lemma keep_lower_lower s : keep_lower (lower s) = lower (letters s).
Proof.
  induction s as [|c s IH]; [reflexivity|].
  cbn [lower map_chars keep_lower letters]. fold (lower s).
  rewrite is_lower_char_lower.
  destruct (is_lower c || is_upper c); cbn [lower map_chars]; fold (lower (letters s));
    now rewrite IH.
Qed.

Lemma letters_lstrip s : letters (lstrip s) = letters s.
Proof.
  induction s as [|c s IH]; [reflexivity|].
  cbn [lstrip letters]. destruct (is_space c) eqn:E; [|reflexivity].
  rewrite IH. replace (is_lower c || is_upper c) with false; [reflexivity|].
  revert E. each_char c.
Qed.

Lemma rstrip_empty_letters s : rstrip s = EmptyString -> letters s = EmptyString.
Proof.
  induction s as [|c s IH]; [reflexivity|].
  cbn [rstrip letters]. destruct (rstrip s) eqn:R; cbn [is_empty andb].
  - destruct (is_space c) eqn:E; [|discriminate]. intros _.
    replace (is_lower c || is_upper c) with false; [now apply IH|].
    revert E. each_char c.
  - discriminate.
Qed.

Lemma letters_rstrip s : letters (rstrip s) = letters s.
Proof.
  induction s as [|c s IH]; [reflexivity|].
  cbn [rstrip]. destruct (is_empty (rstrip s) && is_space c) eqn:E.
  - apply andb_prop in E as [E1 E2].
    assert (rstrip s = EmptyString) as R by (destruct (rstrip s); [reflexivity|discriminate]).
    cbn [letters]. rewrite (rstrip_empty_letters s R).
    replace (is_lower c || is_upper c) with false; [reflexivity|].
    revert E2. each_char c.
  - cbn [letters]. now rewrite IH.
Qed.

Lemma clean_name s : keep_lower (lower (strip s)) = lower (letters s).
Proof. unfold strip. now rewrite keep_lower_lower, letters_rstrip, letters_lstrip. Qed.

(** What [generate_email] computes, in one equation. *)
Lemma generate_email_eq first_name last_name email_format domain :
  generate_email first_name last_name email_format domain =
  if isna first_name || isna last_name
     || is_empty (py_str first_name) || is_empty (py_str last_name)
     || is_empty (cleaned first_name) || is_empty (cleaned last_name)
  then None
  else (fun render => render (cleaned first_name) (cleaned last_name) +:+ "@" +:+ domain)
         <$> dict_get templates email_format.
Proof.
  unfold generate_email, cleaned. rewrite !clean_name.
  destruct first_name as [| |f], last_name as [| |l];
    cbn [py_truthy isna py_str negb orb truthy];
    rewrite ?orb_true_r, ?orb_false_r; cbn [orb]; try reflexivity.
  destruct f as [|a f], l as [|b l]; try reflexivity.
  set (F := lower (letters (String a f))). set (L := lower (letters (String b l))).
  unfold truthy. cbn [is_empty negb orb].
  destruct (is_empty F); [reflexivity|].
  destruct (is_empty L); [reflexivity|]. cbn [negb orb].
  unfold templates. cbn [dict_get].
  repeat match goal with
  | |- context [String.eqb ?t email_format] =>
      rewrite (String.eqb_sym t email_format);
      destruct (String.eqb email_format t);
      [cbn; now rewrite ?app_assoc_str|]
  end.
  reflexivity.
Qed.

Lemma dict_get_None {V : Type} (d : list (string * V)) (k : string) :
  k ∉ map fst d -> dict_get d k = None.
Proof.
  induction d as [|[k' v] d IH]; [reflexivity|].
  cbn [map fst dict_get]. intros H.
  destruct (String.eqb_spec k' k) as [->|Hne].
  - exfalso. apply H. left.
  - apply IH. intros Hin. apply H. now right.
Qed.

Lemma dict_get_Some {V : Type} (d : list (string * V)) (k : string) :
  k ∈ map fst d -> is_Some (dict_get d k).
Proof.
  induction d as [|[k' v] d IH]; cbn [map fst dict_get].
  - intros H. inversion H.
  - intros H. destruct (String.eqb_spec k' k) as [->|Hne]; [eauto|].
    apply IH. inversion H; subst; [congruence|assumption].
Qed.

Lemma is_empty_true s : is_empty s = true <-> s = EmptyString.
Proof. destruct s; cbn; split; congruence. Qed.

Lemma is_empty_false s : is_empty s = false <-> s <> EmptyString.
Proof. destruct s; cbn; split; congruence. Qed.

Lemma letters_nonempty s : letters s <> EmptyString -> s <> EmptyString.
Proof. intros H ->. now apply H. Qed.

(** C8.  Email generation cleans each name to its letters in lower case,
    returns [None] when a cleaned name is empty, returns [None] for a
    template tag outside the enumeration, and otherwise renders the template
    with the cleaned names; both copies of the function agree; and
    Mary-Jane O'Brien at acme.com under [first].[last] is
    maryjane.obrien@acme.com. *)
Theorem generate_email_cleans_and_fails_closed
    (first_name last_name : pyval) (email_format domain : string) :
  extract_email_formats.generate_email first_name last_name email_format domain
  = generate_email first_name last_name email_format domain
  /\ (cleaned first_name = EmptyString \/ cleaned last_name = EmptyString ->
      generate_email first_name last_name email_format domain = None)
  /\ (email_format ∉ recognized_formats ->
      generate_email first_name last_name email_format domain = None)
  /\ (forall f l render,
        first_name = PStr f -> last_name = PStr l ->
        cleaned first_name <> EmptyString -> cleaned last_name <> EmptyString ->
        dict_get templates email_format = Some render ->
        generate_email first_name last_name email_format domain
        = Some (render (lower (letters f)) (lower (letters l)) +:+ "@" +:+ domain))
  /\ generate_email (PStr "Mary-Jane") (PStr "O'Brien") "[first].[last]" "acme.com"
     = Some "maryjane.obrien@acme.com".
Proof.
  split; [reflexivity|]. rewrite generate_email_eq.
  split; [|split; [|split]].
  - intros [H|H]; apply is_empty_true in H; rewrite H, ?orb_true_r; reflexivity.
  - intros H. rewrite (dict_get_None templates email_format H).
    now destruct (_ || _).
  - intros f l render -> -> Hf Hl Hr. rewrite Hr.
    apply is_empty_false in Hf as Hf', Hl as Hl'. rewrite Hf', Hl'.
    unfold cleaned in Hf, Hl. cbn [py_str] in Hf, Hl. cbn [py_str isna orb].
    assert (is_empty f = false) as ->.
    { apply is_empty_false. apply letters_nonempty. intros E. apply Hf. now rewrite E. }
    assert (is_empty l = false) as ->.
    { apply is_empty_false. apply letters_nonempty. intros E. apply Hl. now rewrite E. }
    reflexivity.
  - vm_compute. reflexivity.
Qed.

Lemma generate_email_cleans_and_fails_closed_witness :
  generate_email (PStr "Mary-Jane") (PStr "O'Brien") "[nickname]" "acme.com" = None
  /\ generate_email (PStr "1234") (PStr "Doe") "[first]" "acme.com" = None
  /\ generate_email (PStr " Mary-Jane ") (PStr "O'Brien") "[first_initial][last]" "acme.com"
     = Some "mobrien@acme.com".
Proof.
  split; [|split].
  - refine (proj1 (proj2 (proj2 (generate_email_cleans_and_fails_closed
             (PStr "Mary-Jane") (PStr "O'Brien") "[nickname]" "acme.com"))) _).
    vm_compute; intros H;
      repeat (inversion H as [|? ? ? H']; subst; clear H; rename H' into H);
      inversion H.
  - refine (proj1 (proj2 (generate_email_cleans_and_fails_closed
             (PStr "1234") (PStr "Doe") "[first]" "acme.com")) _).
    left. reflexivity.
  - refine (proj1 (proj2 (proj2 (proj2 (generate_email_cleans_and_fails_closed
             (PStr " Mary-Jane ") (PStr "O'Brien") "[first_initial][last]" "acme.com"))))
             _ _ _ eq_refl eq_refl _ _ eq_refl); vm_compute; discriminate.
Defined.

(** ** The facility matcher *)

Lemma create_facility_key_truthy org city state k :
  create_facility_key org city state = Some k -> truthy k = true.
Proof.
  unfold create_facility_key.
  destruct (normalize_org_name org) as [|a o]; cbn [truthy is_empty negb andb];
    [discriminate|].
  destruct (_ && _); [|discriminate]. intros [= <-]. reflexivity.
Qed.

(** Every candidate of every bucket that [__init__] builds carries a key of
    the table. *)
Lemma init_step_keys (P : string -> Prop) (acc : gmap string (list candidate)) key :
  (forall loc cs c, acc !! loc = Some cs -> c ∈ cs -> P (cand_key c)) ->
  P key ->
  forall loc cs c, init_step acc key !! loc = Some cs -> c ∈ cs -> P (cand_key c).
Proof.
  intros Hacc Hkey loc cs c. unfold init_step.
  destruct (rsplit ", " 2 key) as [|org [|city [|state [|? ?]]]]; try apply Hacc.
  set (loc0 := city +:+ ", " +:+ state).
  destruct (decide (loc0 = loc)) as [<-|Hne].
  - rewrite lookup_insert_eq. intros [= <-] Hin.
    apply elem_of_app in Hin as [Hin|Hin].
    + destruct (acc !! loc0) as [cs0|] eqn:E.
      * rewrite E in Hin. cbn in Hin. eapply Hacc; eauto.
      * rewrite lookup_insert_eq in Hin. cbn in Hin. inversion Hin.
    + apply list_elem_of_singleton in Hin as ->. exact Hkey.
  - rewrite lookup_insert_ne by exact Hne.
    destruct (acc !! loc0) as [cs0|] eqn:E; [apply Hacc|].
    rewrite lookup_insert_ne by exact Hne. apply Hacc.
Qed.

Lemma init_keys (P : string -> Prop) keys :
  forall acc : gmap string (list candidate),
  (forall loc cs c, acc !! loc = Some cs -> c ∈ cs -> P (cand_key c)) ->
  Forall P keys ->
  forall loc cs c, foldl init_step acc keys !! loc = Some cs -> c ∈ cs -> P (cand_key c).
Proof.
  induction keys as [|key keys IH]; intros acc Hacc Hkeys; [exact Hacc|].
  cbn [foldl]. inversion Hkeys; subst.
  apply IH; [|assumption]. now apply init_step_keys.
Qed.

Lemma bucket_keys_in_table (table : list (string * format_info)) thr loc cs c :
  facilities_by_location (FacilityMatcher__init__ table thr) !! loc = Some cs ->
  c ∈ cs -> is_Some (dict_get table (cand_key c)).
Proof.
  cbn [FacilityMatcher__init__ facilities_by_location].
  apply (init_keys (fun k => is_Some (dict_get table k))).
  - intros ? ? ? H. rewrite lookup_empty in H. discriminate.
  - apply Forall_forall. intros k Hk. now apply dict_get_Some.
Qed.

(** [np.argmax] returns the first index of a largest entry. *)
Lemma argmax_from_spec l : forall best_idx best i,
  let r := argmax_from best_idx best i l in
  (r = best_idx /\ Forall (fun x => (x <= best)%Q) l)
  \/ (exists j v, r = i + j /\ l !! j = Some v /\ (best < v)%Q
                  /\ Forall (fun x => (x <= v)%Q) l
                  /\ forall j' x, j' < j -> l !! j' = Some x -> (x < v)%Q).
Proof.
  induction l as [|x l IH]; intros best_idx best i; cbn [argmax_from].
  - left. split; [reflexivity|constructor].
  - destruct (Qle_bool x best) eqn:E.
    + apply Qle_bool_iff in E.
      destruct (IH best_idx best (S i))
        as [[-> Hall]|(j & v & -> & Hj & Hbv & Hall & Hfirst)].
      * left. split; [reflexivity|]. now constructor.
      * right. exists (S j), v. repeat split; [lia|exact Hj|exact Hbv| |].
        -- constructor; [|exact Hall]. apply Qlt_le_weak. now apply Qle_lt_trans with best.
        -- intros [|j'] y Hlt Hy; cbn in Hy.
           ++ injection Hy as <-. now apply Qle_lt_trans with best.
           ++ apply (Hfirst j'); [lia|exact Hy].
    + assert (best < x)%Q as Hbx.
      { apply Qnot_le_lt. intros H. apply Qle_bool_iff in H. congruence. }
      destruct (IH i x (S i)) as [[-> Hall]|(j & v & -> & Hj & Hxv & Hall & Hfirst)].
      * right. exists 0, x. repeat split; [lia|exact Hbx| |].
        -- constructor; [apply Qle_refl|exact Hall].
        -- intros j' y Hlt. lia.
      * right. exists (S j), v. repeat split; [lia|exact Hj| | |].
        -- now apply Qlt_trans with x.
        -- constructor; [now apply Qlt_le_weak|exact Hall].
        -- intros [|j'] y Hlt Hy; cbn in Hy.
           ++ now injection Hy as <-.
           ++ apply (Hfirst j'); [lia|exact Hy].
Qed.

Lemma argmax_spec l :
  l <> [] ->
  exists v, l !! argmax l = Some v /\ Forall (fun x => (x <= v)%Q) l
            /\ forall j x, j < argmax l -> l !! j = Some x -> (x < v)%Q.
Proof.
  destruct l as [|x l]; [congruence|]. intros _. cbn [argmax].
  destruct (argmax_from_spec l 0 x 1)
    as [[-> Hall]|(j & v & -> & Hj & Hxv & Hall & Hfirst)].
  - exists x. repeat split; [constructor; [apply Qle_refl|exact Hall]|].
    intros j y Hlt. lia.
  - exists v. repeat split; [exact Hj|constructor; [now apply Qlt_le_weak|exact Hall]|].
    intros [|j'] y Hlt Hy; cbn in Hy.
    + now injection Hy as <-.
    + apply (Hfirst j'); [lia|exact Hy].
Qed.

Lemma fuzzy_exact_None formats normalized_org candidates :
  Forall (fun c => cand_org_name c <> normalized_org) candidates ->
  fuzzy_exact formats normalized_org candidates = None.
Proof.
  induction 1 as [|c cs Hc _ IH]; [reflexivity|]. cbn [fuzzy_exact].
  destruct (String.eqb_spec normalized_org (cand_org_name c)); [congruence|exact IH].
Qed.

Section MatcherProperties.

Variable tfidf_cosine : list string -> nat -> Q.

Lemma similarities_length names :
  length (similarities tfidf_cosine names) = length names - 1.
Proof. unfold similarities. now rewrite length_map, length_seq. Qed.


(** C6.  When tiers 1 and 2 fail and the bucket of the city and state holds
    candidates, the matcher takes the candidate of largest similarity (the
    first one when several share it); it
    returns that candidate with type [tfidf] and its score when the score is
    at least the threshold, the threshold itself included, and [None] when
    the score is below the threshold. *)
Theorem match_facility_threshold
    (table : list (string * format_info)) (thr : Q)
    (org_name city state : pyval) (candidates : list candidate) :
  let self := FacilityMatcher__init__ table thr in
  let location := strip (upper (py_str city)) +:+ ", " +:+ strip (upper (py_str state)) in
  let normalized_org := normalize_org_name org_name in
  let sims := similarities tfidf_cosine (normalized_org :: map cand_org_name candidates) in
  (forall k, create_facility_key org_name city state = Some k -> k ∉ map fst table) ->
  facilities_by_location self !! location = Some candidates ->
  candidates <> [] ->
  Forall (fun c => cand_org_name c <> normalized_org) candidates ->
  exists best_idx best_score matched fi,
    sims !! best_idx = Some best_score
    /\ Forall (fun x => (x <= best_score)%Q) sims
    /\ (forall j x, j < best_idx -> sims !! j = Some x -> (x < best_score)%Q)
    /\ candidates !! best_idx = Some matched
    /\ dict_get table (cand_key matched) = Some fi
    /\ ((thr <= best_score)%Q ->
        match_facility tfidf_cosine self org_name city state
        = Some (MatchResult (cand_key matched) "tfidf" best_score fi))
    /\ ((best_score < thr)%Q ->
        match_facility tfidf_cosine self org_name city state = None).
Proof.
  intros self location normalized_org sims Hexact Hbucket Hne Hfuzzy.
  assert (length sims = length candidates) as Hlen.
  { unfold sims. rewrite similarities_length. cbn [length]. rewrite length_map. lia. }
  assert (sims <> []) as Hsims.
  { intros E. rewrite E in Hlen. destruct candidates; [congruence|discriminate]. }
  destruct (argmax_spec sims Hsims) as (best & Hbest & Hmax & Hfirst).
  assert (argmax sims < length candidates) as Hlt.
  { rewrite <- Hlen. eapply lookup_lt_Some; eauto. }
  destruct (lookup_lt_is_Some_2 candidates _ Hlt) as [matched Hmatched].
  destruct (bucket_keys_in_table table thr location candidates matched Hbucket) as [fi Hfi].
  { eapply list_elem_of_lookup_2; eauto. }
  exists (argmax sims), best, matched, fi.
  assert (match_facility tfidf_cosine self org_name city state
          = tfidf_tier tfidf_cosine self normalized_org candidates) as Hmf.
  { unfold match_facility.
    destruct (create_facility_key org_name city state) as [k|] eqn:Hk; cbn [mbind option_bind].
    - cbn [self email_formats FacilityMatcher__init__].
      rewrite (dict_get_None table k (Hexact k eq_refl)). cbn [fmap option_fmap option_map].
      fold self. fold location. rewrite Hbucket. fold normalized_org.
      cbn [self email_formats FacilityMatcher__init__].
      rewrite (fuzzy_exact_None _ _ _ Hfuzzy).
      destruct candidates; [congruence|reflexivity].
    - fold location. rewrite Hbucket. fold normalized_org.
      cbn [self email_formats FacilityMatcher__init__].
      rewrite (fuzzy_exact_None _ _ _ Hfuzzy).
      destruct candidates; [congruence|reflexivity]. }
  repeat split; try assumption.
  - intros Hthr. rewrite Hmf. unfold tfidf_tier. fold sims. rewrite Hbest. cbn [default from_option]. unfold id.
    unfold self. cbn [threshold email_formats FacilityMatcher__init__].
    apply Qle_bool_iff in Hthr. rewrite Hthr, Hmatched, Hfi. reflexivity.
  - intros Hthr. rewrite Hmf. unfold tfidf_tier. fold sims. rewrite Hbest. cbn [default from_option]. unfold id.
    unfold self. cbn [threshold FacilityMatcher__init__].
    destruct (Qle_bool thr best) eqn:E; [|reflexivity].
    apply Qle_bool_iff in E. exfalso. now apply (Qlt_not_le _ _ Hthr).
Qed.

(** C10.  A record is annotated stage by stage.  When matching returns
    [None], the three match fields and the three email fields are all
    [None]; when matching returns a result and the generator returns [None],
    the three match fields carry the result and the three email fields are
    [None].  Matching runs only for a record that has a facility key, and
    only [facility_key] is set for a record that is not matched. *)
Theorem process_single_record_by_stage
    (i : nat) (r : row) (table : list (string * format_info)) (thr : Q) :
  let res := process_single_record tfidf_cosine (i, r) table thr in
  let matched :=
    match_facility tfidf_cosine (FacilityMatcher__init__ table thr)
      (row_org_name r) (row_city r) (row_state r) in
  facility_key res = create_facility_key (row_org_name r) (row_city r) (row_state r)
  /\ (matched = None \/ facility_key res = None ->
      matched_facility res = None /\ match_type res = None /\ match_score res = None
      /\ generated_email res = None /\ email_format_used res = None
      /\ email_domain res = None)
  /\ (forall m,
        facility_key res <> None ->
        matched = Some m ->
        generate_email (row_first_name r) (row_last_name r)
          (ef_format (fi_record (mr_format_info m)))
          (ef_domain (fi_record (mr_format_info m))) = None ->
        matched_facility res = Some (matched_key m)
        /\ match_type res = Some (mr_match_type m)
        /\ match_score res = Some (mr_match_score m)
        /\ generated_email res = None /\ email_format_used res = None
        /\ email_domain res = None).
Proof.
  intros res matched. subst res. unfold process_single_record.
  destruct (create_facility_key (row_org_name r) (row_city r) (row_state r))
    as [k|] eqn:Hk; cbn [opt_truthy negb].
  - rewrite (create_facility_key_truthy _ _ _ _ Hk). cbn [negb]. fold matched.
    destruct matched as [m|] eqn:Hm.
    + set (e := generate_email _ _ _ _).
      split; [destruct (opt_truthy e); reflexivity|].
      split.
      * intros [H|H]; [discriminate|]. destruct (opt_truthy e); discriminate.
      * intros m' _ [= <-] He. fold e in He. rewrite He. cbn. repeat split.
    + split; [reflexivity|]. split; [intros _; cbn; repeat split|].
      intros m' _ H. discriminate.
  - split; [reflexivity|]. split; [intros _; cbn; repeat split|].
    intros m' H. cbn in H. congruence.
Qed.

End MatcherProperties.


Lemma match_facility_threshold_witness :
  threshold_boundary_statement (85 # 100)
  /\ match_facility (constant_score (85 # 100))
       (FacilityMatcher__init__ springfield_table (85 # 100))
       (PStr "Acme Helth") (PStr "Springfield") (PStr "IL")
     = Some (MatchResult "ACME HEALTH, SPRINGFIELD, IL" "tfidf" (85 # 100)
               (FormatInfo "Acme Health, Springfield, IL" acme_record))
  /\ match_facility (constant_score (849999 # 1000000))
       (FacilityMatcher__init__ springfield_table (85 # 100))
       (PStr "Acme Helth") (PStr "Springfield") (PStr "IL")
     = None.
Proof.
  split; [|split; vm_compute; reflexivity].
  apply (match_facility_threshold (constant_score (85 # 100)) springfield_table (85 # 100)
           (PStr "Acme Helth") (PStr "Springfield") (PStr "IL") springfield_bucket).
  - intros k Hk. vm_compute in Hk. injection Hk as <-. vm_compute.
    intros H. apply elem_of_cons in H as [H|H]; [discriminate|].
    apply elem_of_cons in H as [H|H]; [discriminate|]. now apply elem_of_nil in H.
  - vm_compute. reflexivity.
  - discriminate.
  - repeat constructor; vm_compute; discriminate.
Defined.

Lemma process_single_record_by_stage_witness :
  (let res := process_single_record (constant_score (1 # 2)) (7, unmatched_row)
                springfield_table (85 # 100) in
   matched_facility res = None /\ match_type res = None /\ match_score res = None
   /\ generated_email res = None /\ email_format_used res = None
   /\ email_domain res = None)
  /\ (let res := process_single_record (constant_score (1 # 2)) (8, nameless_row)
                   springfield_table (85 # 100) in
      matched_facility res = Some "ACME HEALTH, SPRINGFIELD, IL"
      /\ match_type res = Some "exact"
      /\ match_score res = Some 1%Q
      /\ generated_email res = None /\ email_format_used res = None
      /\ email_domain res = None).
Proof.
  split.
  - refine (proj1 (proj2 (process_single_record_by_stage (constant_score (1 # 2))
              7 unmatched_row springfield_table (85 # 100))) _).
    left. vm_compute. reflexivity.
  - refine (proj2 (proj2 (process_single_record_by_stage (constant_score (1 # 2))
              8 nameless_row springfield_table (85 # 100)))
              (MatchResult "ACME HEALTH, SPRINGFIELD, IL" "exact" 1
                 (FormatInfo "Acme Health, Springfield, IL" acme_record)) _ _ _).
    + vm_compute. discriminate.
    + vm_compute. reflexivity.
    + vm_compute. reflexivity.
Defined.

(** ** The source prioritiser *)

Lemma link_priority_le link : link_priority link <= 80.
Proof. unfold link_priority. repeat destruct (contains _ link); lia. Qed.

Lemma organic_priority_le position link : organic_priority position link <= 90.
Proof.
  unfold organic_priority. pose proof (link_priority_le link).
  destruct (position =? 0); lia.
Qed.

Lemma best_match_of_answer_box sr ab f0 rest :
  sr_answerBox sr = Some ab ->
  answer_box_formats ab = f0 :: rest ->
  best_match_of sr = Some (with_source_type f0 "answerBox").
Proof.
  unfold answer_box_formats, best_match_of, answer_box_step. intros -> ->.
  reflexivity.
Qed.

Lemma organic_loop_nothing organics : forall position b,
  Forall (fun o => organic_formats o = []) organics ->
  organic_loop position organics b = b.
Proof.
  induction organics as [|o organics IH]; intros position b H; [reflexivity|].
  inversion H as [|? ? Ho Hrest]; subst. cbn [organic_loop].
  assert (organic_step b position o = b) as ->; [|now apply IH].
  unfold organic_step. unfold organic_formats in Ho. rewrite Ho.
  now destruct (_ <? _).
Qed.

Lemma best_match_of_nothing sr : yields_nothing sr -> best_match_of sr = None.
Proof.
  intros [Hab Horg]. unfold best_match_of.
  assert (answer_box_step sr (None, 0) = (None, 0)) as ->.
  { unfold answer_box_step. destruct (sr_answerBox sr) as [ab|]; [|reflexivity].
    specialize (Hab ab eq_refl). unfold answer_box_formats in Hab. now rewrite Hab. }
  cbn [fst snd]. rewrite organic_loop_nothing by exact Horg.
  now destruct (_ || _).
Qed.

Lemma entry_step_other (m : gmap string email_format) e fac :
  en_facility e <> fac -> entry_step m e !! fac = m !! fac.
Proof.
  intros Hne. unfold entry_step.
  destruct (en_results e) as [sr|]; [|reflexivity].
  destruct (best_match_of sr); [|reflexivity].
  now rewrite lookup_insert_ne.
Qed.

Lemma foldl_entry_step_other entries fac : forall m : gmap string email_format,
  Forall (fun e => en_facility e <> fac) entries ->
  foldl entry_step m entries !! fac = m !! fac.
Proof.
  induction entries as [|e entries IH]; intros m H; [reflexivity|].
  inversion H; subst. cbn [foldl]. rewrite IH by assumption.
  now apply entry_step_other.
Qed.

Lemma foldl_entry_step_nothing entries fac : forall m : gmap string email_format,
  m !! fac = None ->
  (forall e sr, e ∈ entries -> en_facility e = fac -> en_results e = Some sr ->
                yields_nothing sr) ->
  foldl entry_step m entries !! fac = None.
Proof.
  induction entries as [|e entries IH]; intros m Hm H; [exact Hm|].
  cbn [foldl]. apply IH.
  - destruct (decide (en_facility e = fac)) as [Heq|Hne].
    + unfold entry_step. destruct (en_results e) as [sr|] eqn:Hsr; [|exact Hm].
      rewrite (best_match_of_nothing sr); [exact Hm|].
      apply (H e sr); [apply elem_of_cons; now left|exact Heq|exact Hsr].
    + now rewrite entry_step_other.
  - intros e' sr Hin. apply H. apply elem_of_cons. now right.
Qed.

(** C3.  An organic priority is at most 90, below the answer-box weight of
    100.  When the answer-box snippet of a results object yields a format,
    the best match is the first such format, marked [answerBox], whatever the
    organic results are, and it is what the table holds for the facility (the
    last entry of a facility decides).  A results object none of whose
    snippets yields a format has no best match, and a facility all of whose
    results objects are such is absent from the table. *)
Theorem answer_box_wins_and_nothing_is_omitted (results : list entry) :
  (forall position link, organic_priority position link <= 90 /\ 90 < 100)
  /\ (forall sr ab f0 rest,
        sr_answerBox sr = Some ab ->
        answer_box_formats ab = f0 :: rest ->
        best_match_of sr = Some (with_source_type f0 "answerBox")
        /\ ef_source_type (with_source_type f0 "answerBox") = Some "answerBox")
  /\ (forall pre e post sr ab f0 rest,
        results = pre ++ e :: post ->
        Forall (fun e' => en_facility e' <> en_facility e) post ->
        en_results e = Some sr ->
        sr_answerBox sr = Some ab ->
        answer_box_formats ab = f0 :: rest ->
        extract_formats_from_serper_results results !! en_facility e
        = Some (with_source_type f0 "answerBox"))
  /\ (forall sr, yields_nothing sr -> best_match_of sr = None)
  /\ (forall fac,
        (forall e sr, e ∈ results -> en_facility e = fac -> en_results e = Some sr ->
                      yields_nothing sr) ->
        extract_formats_from_serper_results results !! fac = None).
Proof.
  split; [|split; [|split; [|split]]].
  - intros position link. split; [apply organic_priority_le|lia].
  - intros sr ab f0 rest Hab Hf. split; [|reflexivity].
    eapply best_match_of_answer_box; eauto.
  - intros pre e post sr ab f0 rest -> Hpost Hsr Hab Hf.
    unfold extract_formats_from_serper_results.
    rewrite foldl_app. cbn [foldl]. rewrite foldl_entry_step_other by exact Hpost.
    unfold entry_step. rewrite Hsr.
    rewrite (best_match_of_answer_box sr ab f0 rest Hab Hf).
    apply lookup_insert_eq.
  - apply best_match_of_nothing.
  - intros fac H. apply foldl_entry_step_nothing; [apply lookup_empty|exact H].
Qed.

Lemma answer_box_wins_and_nothing_is_omitted_witness :
  extract_formats_from_serper_results [acme_entry; quiet_entry]
    !! "Acme Health, Springfield, IL"
  = Some (EmailFormat "[first].[last]" "acme.com" "jane.doe@acme.com"
            "https://rocketreach.co/acme" "high" (Some "answerBox"))
  /\ extract_formats_from_serper_results [acme_entry; quiet_entry]
       !! "Quiet Clinic, Dover, DE" = None.
Proof.
  pose proof (answer_box_wins_and_nothing_is_omitted [acme_entry; quiet_entry])
    as (_ & _ & Hbox & _ & Habsent).
  split.
  - refine (Hbox [] acme_entry [quiet_entry] _ _
              (EmailFormat "[first].[last]" "acme.com" "jane.doe@acme.com"
                 "https://rocketreach.co/acme" "high" None)
              [] eq_refl _ eq_refl eq_refl _).
    + repeat constructor. vm_compute. discriminate.
    + vm_compute. reflexivity.
  - apply Habsent. intros e sr He Hfac Hsr.
    apply elem_of_cons in He as [->|He].
    { vm_compute in Hfac. discriminate. }
    apply elem_of_cons in He as [->|He]; [|now apply elem_of_nil in He].
    vm_compute in Hsr. injection Hsr as <-. split.
    + intros ab Hab. discriminate.
    + repeat constructor.
Defined.

(** ** The text format extractor *)

Section AppendingLoops.

Context {A B : Type} (step : list A -> B -> list A).
Hypothesis step_appends : forall acc p, step acc p = acc ++ step [] p.

Lemma foldl_appends ps : forall acc, foldl step acc ps = acc ++ foldl step [] ps.
Proof.
  induction ps as [|p ps IH]; intros acc; cbn [foldl].
  - now rewrite app_nil_r.
  - rewrite IH, (IH (step [] p)), step_appends. now rewrite app_assoc.
Qed.

Lemma foldl_appends_Forall (P : A -> Prop) ps :
  (forall p, Forall P (step [] p)) -> Forall P (foldl step [] ps).
Proof.
  intros Hstep. induction ps as [|p ps IH]; cbn [foldl]; [constructor|].
  rewrite foldl_appends. apply Forall_app. split; [apply Hstep|exact IH].
Qed.

End AppendingLoops.

Lemma bracket_step_appends text link acc p :
  bracket_step text link acc p = acc ++ bracket_step text link [] p.
Proof.
  unfold bracket_step. destruct (Re.search true p.1 text); [|now rewrite app_nil_r].
  destruct (if has_char _ _ then _ else _); [|now rewrite app_nil_r].
  destruct (truthy _); [reflexivity|now rewrite app_nil_r].
Qed.

Lemma leadiq_step_appends text link acc p :
  leadiq_step text link acc p = acc ++ leadiq_step text link [] p.
Proof.
  unfold leadiq_step. destruct (Re.search true p.1 text); [reflexivity|].
  now rewrite app_nil_r.
Qed.

Lemma leadiq_loop_appends text link acc :
  leadiq_loop text link acc = acc ++ leadiq_group text link.
Proof. apply foldl_appends. intros. apply leadiq_step_appends. Qed.

Lemma numbered_loop_over_appends pats text link acc :
  numbered_loop_over pats text link acc = acc ++ numbered_loop_over pats text link [].
Proof.
  induction pats as [|p pats IH]; cbn [numbered_loop_over]; [now rewrite app_nil_r|].
  destruct (Re.search true p.1 text); [reflexivity|exact IH].
Qed.

Lemma numbered_loop_appends text link acc :
  numbered_loop text link acc = acc ++ numbered_group text link.
Proof. apply numbered_loop_over_appends. Qed.

(** The extractor returns what groups 1 to 3 found, all of it; group 4 runs
    when that is nothing. *)
Lemma extract_formats_eq text link :
  extract_formats_from_text_improved text link =
  match bracket_group text link ++ numbered_group text link ++ leadiq_group text link with
  | [] => fallback_group text link
  | found => found
  end.
Proof.
  unfold extract_formats_from_text_improved.
  rewrite leadiq_loop_appends, numbered_loop_appends.
  fold (bracket_group text link). rewrite <- app_assoc.
  now destruct (bracket_group text link ++ _).
Qed.

Lemma bracket_group_high text link :
  Forall (fun c => ef_confidence c = "high") (bracket_group text link).
Proof.
  apply foldl_appends_Forall; [intros; apply bracket_step_appends|].
  intros p. unfold bracket_step. destruct (Re.search true p.1 text); [|constructor].
  destruct (if has_char _ _ then _ else _); [|constructor].
  destruct (truthy _); repeat constructor.
Qed.

Lemma leadiq_group_high text link :
  Forall (fun c => ef_confidence c = "high") (leadiq_group text link).
Proof.
  apply foldl_appends_Forall; [intros; apply leadiq_step_appends|].
  intros p. unfold leadiq_step. destruct (Re.search true p.1 text); repeat constructor.
Qed.

Lemma numbered_loop_over_high pats text link :
  Forall (fun c => ef_confidence c = "high") (numbered_loop_over pats text link []).
Proof.
  induction pats as [|p pats IH]; cbn [numbered_loop_over]; [constructor|].
  destruct (Re.search true p.1 text); [repeat constructor|exact IH].
Qed.

Lemma fallback_loop_over_medium ms link :
  Forall (fun c => ef_confidence c = "medium") (fallback_loop_over ms link []).
Proof.
  induction ms as [|m ms IH]; cbn [fallback_loop_over]; [constructor|].
  destruct (infer_format_from_local_part _); [|exact IH].
  destruct (truthy _); [repeat constructor|exact IH].
Qed.

(** C1, as the code has it.  The candidates of groups 1, 2 and 3 are all
    returned, in that order; group 4 contributes only when the first three
    found nothing.  So the first candidate of the result is the first
    candidate of the first group that matched, and a text in which one of
    groups 1 to 3 matches yields no fallback candidate: every candidate has
    confidence [high]. *)
Theorem extract_keeps_groups_in_priority_order (text source_link : string) :
  let found := bracket_group text source_link ++ numbered_group text source_link
               ++ leadiq_group text source_link in
  let extracted := extract_formats_from_text_improved text source_link in
  (found <> [] -> extracted = found)
  /\ (found = [] -> extracted = fallback_group text source_link)
  /\ head extracted = head (first_group_that_yields text source_link)
  /\ (found <> [] -> Forall (fun c => ef_confidence c = "high") extracted)
  /\ (found = [] -> Forall (fun c => ef_confidence c = "medium") extracted).
Proof.
  intros found extracted. subst extracted. rewrite extract_formats_eq. fold found.
  assert (Forall (fun c => ef_confidence c = "high") found) as Hhigh.
  { unfold found. rewrite !Forall_app.
    split; [apply bracket_group_high|split;
      [apply numbered_loop_over_high|apply leadiq_group_high]]. }
  split; [|split; [|split; [|split]]].
  - destruct found; [congruence|reflexivity].
  - intros ->. reflexivity.
  - unfold found, first_group_that_yields.
    destruct (bracket_group text source_link) as [|c1 g1]; [|reflexivity].
    destruct (numbered_group text source_link) as [|c2 g2]; [|reflexivity].
    destruct (leadiq_group text source_link) as [|c3 g3]; reflexivity.
  - destruct found; [congruence|]. intros _. exact Hhigh.
  - intros ->. apply fallback_loop_over_medium.
Qed.

(** C1, as stated, fails: a text with a bracket mention and a numbered entry
    yields a candidate of group 1 and a candidate of group 2 in one list, and
    a numbered entry that spells the template yields one candidate of group
    2 and one of group 3. *)
Lemma extract_mixes_groups :
  let text := bracket_and_numbered_text in
  bracket_group text EmptyString <> []
  /\ extract_formats_from_text_improved text EmptyString
     <> first_group_that_yields text EmptyString
  /\ (exists c, (c ∈ extract_formats_from_text_improved text EmptyString)
                /\ (c ∉ bracket_group text EmptyString)
                /\ (c ∈ numbered_group text EmptyString))
  /\ extract_formats_from_text_improved numbered_template_text EmptyString
     = numbered_group numbered_template_text EmptyString
       ++ leadiq_group numbered_template_text EmptyString
  /\ length (numbered_group numbered_template_text EmptyString) = 1
  /\ length (leadiq_group numbered_template_text EmptyString) = 1.
Proof.
  cbv zeta. split; [vm_compute; discriminate|].
  split; [vm_compute; discriminate|].
  split; [|split; [vm_compute; reflexivity|split; vm_compute; reflexivity]].
  exists (EmailFormat "[first_initial][last]" "acme.com" "jdoe@acme.com"
            EmptyString "high" None).
  split; [|split].
  - vm_compute. apply elem_of_cons. right. apply elem_of_cons. now left.
  - vm_compute. intros H. apply elem_of_cons in H as [H|H]; [discriminate|].
    now apply elem_of_nil in H.
  - vm_compute. apply elem_of_cons. now left.
Qed.

Lemma extract_keeps_groups_in_priority_order_witness :
  extract_formats_from_text_improved bracket_and_numbered_text "https://rocketreach.co/acme"
  = bracket_group bracket_and_numbered_text "https://rocketreach.co/acme"
    ++ numbered_group bracket_and_numbered_text "https://rocketreach.co/acme"
    ++ leadiq_group bracket_and_numbered_text "https://rocketreach.co/acme"
  /\ extract_formats_from_text_improved "Write to jane.doe@acme.com today." EmptyString
     = fallback_group "Write to jane.doe@acme.com today." EmptyString.
Proof.
  split.
  - refine (proj1 (extract_keeps_groups_in_priority_order
              bracket_and_numbered_text "https://rocketreach.co/acme") _).
    vm_compute. discriminate.
  - refine (proj1 (proj2 (extract_keeps_groups_in_priority_order
              "Write to jane.doe@acme.com today." EmptyString)) _).
    vm_compute. reflexivity.
Defined.

(** *** Matching *)

Lemma search_from_spec ic r s : forall prev m,
  Re.search_from ic r prev s = Some m ->
  exists pre suf prev', s = pre +:+ suf /\ Re.match_here ic r prev' suf = Some m.
Proof.
  induction s as [|c s IH]; intros prev m; cbn [Re.search_from].
  - destruct (Re.match_here ic r prev EmptyString) as [m'|] eqn:E; [|discriminate].
    intros [= <-]. exists EmptyString, EmptyString, prev. now split.
  - destruct (Re.match_here ic r prev (String c s)) as [m'|] eqn:E.
    + intros [= <-]. exists EmptyString, (String c s), prev. now split.
    + intros H. destruct (IH _ _ H) as (pre & suf & prev' & -> & Hm).
      exists (String c pre), suf, prev'. now split.
Qed.

Lemma lit_matches_one c : Re.lit_matches true "1" c = true -> c = "1"%char.
Proof. destruct c as [[] [] [] [] [] [] [] []]; vm_compute; intros; congruence. Qed.

Lemma lit_matches_dot c : Re.lit_matches true "." c = true -> c = "."%char.
Proof. destruct c as [[] [] [] [] [] [] [] []]; vm_compute; intros; congruence. Qed.

Lemma class_matches_ws c : Re.class_matches true ws c = true -> is_space c = true.
Proof. destruct c as [[] [] [] [] [] [] [] []]; vm_compute; intros; congruence. Qed.

(** A pattern that opens with [1\.\s+] matches only where the text reads
    "1." and then a whitespace character. *)
Lemma rank_one_prefix (r : Re.regex) prev s m :
  Re.match_here true (Re.Cat (Re.Lit "1.") (Re.Cat (Re.plus ws) r)) prev s = Some m ->
  exists w rest, s = String "1" (String "." (String w rest)) /\ is_space w = true.
Proof.
  unfold Re.match_here.
  destruct (Re.run _ _ _ _) as [st|] eqn:E; [|discriminate]. intros _.
  cbn [Re.run Re.ms_rest Re.ms_prev Re.ms_caps] in E.
  destruct s as [|c1 [|c2 s]]; cbn [Re.run_lit] in E.
  - discriminate.
  - destruct (Re.lit_matches true "1" c1); discriminate.
  - destruct (Re.lit_matches true "1" c1) eqn:E1; [|discriminate].
    destruct (Re.lit_matches true "." c2) eqn:E2; [|discriminate].
    apply lit_matches_one in E1 as ->. apply lit_matches_dot in E2 as ->.
    unfold Re.plus in E. cbn [Re.run Re.ms_rest Re.ms_prev Re.ms_caps] in E.
    destruct s as [|w rest]; cbn [Re.run_rep] in E; [discriminate|].
    destruct (Re.class_matches true ws w) eqn:Ew.
    + exists w, rest. split; [reflexivity|]. now apply class_matches_ws.
    + discriminate.
Qed.

Lemma numbered_patterns_rank_one :
  Forall (fun p => exists r, p.1 = Re.Cat (Re.Lit "1.") (Re.Cat (Re.plus ws) r))
         numbered_patterns.
Proof. repeat constructor; eexists; reflexivity. Qed.

(** *** The numbered group *)

Lemma numbered_loop_over_length pats text link :
  length (numbered_loop_over pats text link []) <= 1.
Proof.
  induction pats as [|p pats IH]; cbn [numbered_loop_over]; [cbn; lia|].
  destruct (Re.search true p.1 text); [cbn; lia|exact IH].
Qed.

Lemma numbered_loop_over_first_match pats text link c :
  c ∈ numbered_loop_over pats text link [] ->
  exists before p after m,
    pats = before ++ p :: after
    /\ Forall (fun q => Re.search true q.1 text = None) before
    /\ Re.search true p.1 text = Some m
    /\ c = numbered_candidate link p.2 m.
Proof.
  induction pats as [|p pats IH]; cbn [numbered_loop_over].
  - intros H. now apply elem_of_nil in H.
  - destruct (Re.search true p.1 text) as [m|] eqn:E.
    + intros H. apply list_elem_of_singleton in H as ->.
      exists [], p, pats, m. repeat split; [constructor|exact E].
    + intros H. destruct (IH H) as (before & q & after & m & -> & Hb & Hq & Hc).
      exists (p :: before), q, after, m. repeat split; try assumption.
      now constructor.
Qed.

(** The numbered group tries its five patterns in the order dotted,
    underscore, hyphen, initial and surname, bare first name; it yields at
    most one candidate, that of the first pattern that matches; a pattern
    matches only at a place where the text reads "1." followed by
    whitespace; and the text with ranks 1 and 2 yields the rank-1 format
    [first_initial][last] alone. *)
Lemma numbered_group_first_pattern_wins (text source_link : string) :
  map snd numbered_patterns
  = ["[first].[last]"; "[first]_[last]"; "[first]-[last]"; "[first_initial][last]"; "[first]"]
  /\ length (numbered_group text source_link) <= 1
  /\ (forall c, c ∈ numbered_group text source_link ->
        exists before p after m pre w rest,
          numbered_patterns = before ++ p :: after
          /\ Forall (fun q => Re.search true q.1 text = None) before
          /\ Re.search true p.1 text = Some m
          /\ c = numbered_candidate source_link p.2 m
          /\ text = pre +:+ String "1" (String "." (String w rest))
          /\ is_space w = true)
  /\ extract_formats_from_text_improved ranked_text source_link
     = [EmailFormat "[first_initial][last]" "acme.com" "jdoe@acme.com"
          source_link "high" None].
Proof.
  split; [reflexivity|]. split; [apply numbered_loop_over_length|].
  split; [|vm_compute; reflexivity].
  intros c Hc.
  destruct (numbered_loop_over_first_match _ _ _ _ Hc)
    as (before & p & after & m & Hpats & Hb & Hp & ->).
  assert (exists r, p.1 = Re.Cat (Re.Lit "1.") (Re.Cat (Re.plus ws) r)) as [r Hr].
  { pose proof numbered_patterns_rank_one as H. rewrite Hpats in H.
    apply Forall_app in H as [_ H]. now inversion H. }
  pose proof Hp as Hs. unfold Re.search in Hs.
  apply search_from_spec in Hs as (pre & suf & prev' & -> & Hm).
  rewrite Hr in Hm. apply rank_one_prefix in Hm as (w & rest & -> & Hw).
  exists before, p, after, m, pre, w, rest. repeat split; assumption.
Qed.

(** C4.  The patterns of the numbered group are not anchored at the start
    of a rank, so "1." followed by whitespace is also found at the end of a
    larger rank.  In a text whose rank-1 entry is jdoe@acme.com and whose
    rank-11 entry is jane.doe@acme.com, the dotted pattern, tried first,
    matches inside "11. " and the group returns [first].[last], built from
    the rank-11 entry; the rank-1 entry on its own gives
    [first_initial][last]. *)
Theorem numbered_group_reads_rank_eleven :
  numbered_group rank_one_line EmptyString
  = [EmailFormat "[first_initial][last]" "acme.com" "jdoe@acme.com"
       EmptyString "high" None]
  /\ numbered_group rank_eleven_text EmptyString
     = [EmailFormat "[first].[last]" "acme.com" "jane.doe@acme.com"
          EmptyString "high" None]
  /\ extract_formats_from_text_improved rank_eleven_text EmptyString
     = [EmailFormat "[first].[last]" "acme.com" "jane.doe@acme.com"
          EmptyString "high" None]
  /\ (exists p m,
        head numbered_patterns = Some p
        /\ p.2 = "[first].[last]"
        /\ Re.search true p.1 rank_eleven_text = Some m
        /\ Re.m_text m = "1. jane.doe@acme.com ("
        /\ rank_eleven_text
           = rank_one_line +:+ String "010" "1" +:+ Re.m_text m +:+ "20%)").
Proof.
  split; [vm_compute; reflexivity|]. split; [vm_compute; reflexivity|].
  split; [vm_compute; reflexivity|].
  eexists. eexists. split; [reflexivity|]. split; [reflexivity|].
  split; [vm_compute; reflexivity|]. split; vm_compute; reflexivity.
Qed.

(** *** The fallback group *)

Lemma infer_format_truthy local_part f :
  infer_format_from_local_part local_part = Some f -> truthy f = true.
Proof.
  unfold infer_format_from_local_part.
  repeat match goal with
  | |- context [if ?b then _ else _] => destruct b
  | |- context [match ?l with [] => _ | _ :: _ => _ end] => destruct l
  end; intros [= <-]; reflexivity.
Qed.

Lemma fallback_loop_over_length ms link :
  length (fallback_loop_over ms link []) <= 1.
Proof.
  induction ms as [|m ms IH]; cbn [fallback_loop_over]; [cbn; lia|].
  destruct (infer_format_from_local_part _); [|exact IH].
  destruct (truthy _); [cbn; lia|exact IH].
Qed.

Lemma fallback_loop_over_first_inferable ms link c :
  c ∈ fallback_loop_over ms link [] ->
  exists skipped m later f,
    ms = skipped ++ m :: later
    /\ Forall (fun m' => infer_format_from_local_part (lower (Re.group 1 m')) = None) skipped
    /\ infer_format_from_local_part (lower (Re.group 1 m)) = Some f
    /\ c = fallback_candidate link f m.
Proof.
  induction ms as [|m ms IH]; cbn [fallback_loop_over].
  - intros H. now apply elem_of_nil in H.
  - destruct (infer_format_from_local_part (lower (Re.group 1 m))) as [f|] eqn:E.
    + rewrite (infer_format_truthy _ _ E). intros H.
      apply list_elem_of_singleton in H as ->.
      exists [], m, ms, f. repeat split; [constructor|exact E].
    + intros H. destruct (IH H) as (skipped & m' & later & f & -> & Hs & Hf & Hc).
      exists (m :: skipped), m', later, f. repeat split; try assumption.
      now constructor.
Qed.

Lemma fallback_loop_over_none ms link :
  Forall (fun m => infer_format_from_local_part (lower (Re.group 1 m)) = None) ms ->
  fallback_loop_over ms link [] = [].
Proof.
  induction 1 as [|m ms Hm _ IH]; [reflexivity|]. cbn [fallback_loop_over].
  now rewrite Hm.
Qed.

Lemma fallback_loop_over_returns skipped m later f link :
  Forall (fun m' => infer_format_from_local_part (lower (Re.group 1 m')) = None) skipped ->
  infer_format_from_local_part (lower (Re.group 1 m)) = Some f ->
  fallback_loop_over (skipped ++ m :: later) link [] = [fallback_candidate link f m].
Proof.
  intros Hs Hf. induction Hs as [|m' skipped Hm' _ IH]; cbn [app fallback_loop_over].
  - now rewrite Hf, (infer_format_truthy _ _ Hf).
  - now rewrite Hm'.
Qed.

(** C5, as the code has it.  When groups 1 to 3 find nothing the result is
    that of the fallback group.  If some email-shaped token has a local part
    that yields a format, the result is exactly one candidate, of confidence
    [medium], built from the first such token: the tokens before it, whose
    local parts yield none, are passed over.  If no token yields a format the
    result is empty. *)
Theorem fallback_takes_first_inferable_email (text source_link : string) :
  bracket_group text source_link = [] ->
  numbered_group text source_link = [] ->
  leadiq_group text source_link = [] ->
  let extracted := extract_formats_from_text_improved text source_link in
  let emails := Re.finditer false email_pattern text in
  length extracted <= 1
  /\ Forall (fun c => ef_confidence c = "medium") extracted
  /\ (forall c, c ∈ extracted ->
        exists skipped m later f,
          emails = skipped ++ m :: later
          /\ Forall (fun m' => infer_format_from_local_part (lower (Re.group 1 m')) = None)
                    skipped
          /\ infer_format_from_local_part (lower (Re.group 1 m)) = Some f
          /\ c = fallback_candidate source_link f m)
  /\ (Forall (fun m => infer_format_from_local_part (lower (Re.group 1 m)) = None) emails ->
      extracted = [])
  /\ (forall skipped m later f,
        emails = skipped ++ m :: later ->
        Forall (fun m' => infer_format_from_local_part (lower (Re.group 1 m')) = None)
               skipped ->
        infer_format_from_local_part (lower (Re.group 1 m)) = Some f ->
        extracted = [fallback_candidate source_link f m]).
Proof.
  intros H1 H2 H3 extracted emails. subst extracted.
  rewrite extract_formats_eq, H1, H2, H3. cbn [app].
  unfold fallback_group, fallback_loop. fold emails.
  split; [apply fallback_loop_over_length|].
  split; [apply fallback_loop_over_medium|].
  split; [apply fallback_loop_over_first_inferable|].
  split; [apply fallback_loop_over_none|].
  intros skipped m later f ->. apply fallback_loop_over_returns.
Qed.

(** C5, as stated, fails: groups 1 to 3 find nothing in the text, its first
    email-shaped token is ab@x.com, whose local part yields no format, and
    the candidate returned is built from the second token. *)
Lemma fallback_passes_over_first_email :
  bracket_group two_emails_text EmptyString = []
  /\ numbered_group two_emails_text EmptyString = []
  /\ leadiq_group two_emails_text EmptyString = []
  /\ map (fun m => (Re.group 1 m, Re.group 2 m))
         (Re.finditer false email_pattern two_emails_text)
     = [("ab", "x.com"); ("jane.doe", "acme.com")]
  /\ extract_formats_from_text_improved two_emails_text EmptyString
     = [EmailFormat "[first].[last]" "acme.com" "jane.doe@acme.com"
          EmptyString "medium" None]
  /\ ~ (forall c, c ∈ extract_formats_from_text_improved two_emails_text EmptyString ->
                  built_from_first_email two_emails_text c).
Proof.
  split; [vm_compute; reflexivity|]. split; [vm_compute; reflexivity|].
  split; [vm_compute; reflexivity|]. split; [vm_compute; reflexivity|].
  split; [vm_compute; reflexivity|].
  intros H.
  destruct (H (EmailFormat "[first].[last]" "acme.com" "jane.doe@acme.com"
                 EmptyString "medium" None)) as (m & later & Hm & Hex).
  { vm_compute. apply elem_of_cons. now left. }
  vm_compute in Hm. injection Hm as <- <-. vm_compute in Hex. discriminate.
Qed.

Lemma fallback_takes_first_inferable_email_witness :
  extract_formats_from_text_improved two_emails_text "https://example.org"
  = [fallback_candidate "https://example.org" "[first].[last]"
       (Re.RMatch "jane.doe@acme.com" ["jane.doe"; "acme.com"])]
  /\ fallback_candidate "https://example.org" "[first].[last]"
       (Re.RMatch "jane.doe@acme.com" ["jane.doe"; "acme.com"])
     = EmailFormat "[first].[last]" "acme.com" "jane.doe@acme.com"
         "https://example.org" "medium" None.
Proof.
  split; [|reflexivity].
  refine (proj2 (proj2 (proj2 (proj2
            (fallback_takes_first_inferable_email two_emails_text "https://example.org"
               _ _ _))))
            [Re.RMatch "ab@x.com" ["ab"; "x.com"]]
            (Re.RMatch "jane.doe@acme.com" ["jane.doe"; "acme.com"]) []
            "[first].[last]" _ _ _).
  - vm_compute. reflexivity.
  - vm_compute. reflexivity.
  - vm_compute. reflexivity.
  - vm_compute. reflexivity.
  - constructor; [vm_compute; reflexivity|constructor].
  - vm_compute. reflexivity.
Defined.

(** ** The key normaliser *)

(** *** Cuts at the separator *)

Lemma take_app_length (a b : string) : take (String.length a) (a +:+ b) = a.
Proof.
  induction a as [|x a IH]; [now destruct b|]. rewrite app_cons_str. cbn. now rewrite IH.
Qed.

Lemma drop_app_length (a b : string) : drop (String.length a) (a +:+ b) = b.
Proof.
  induction a as [|x a IH]; [now destruct b|]. rewrite app_cons_str. cbn. exact IH.
Qed.

Lemma contains_tail sep c s : contains sep (String c s) = false -> contains sep s = false.
Proof. cbn [contains]. intros H. now apply orb_false_elim in H as [_ H]. Qed.

Lemma rfind_absent sep s :
  is_empty sep = false -> contains sep s = false -> rfind sep s = None.
Proof.
  intros Hsep. induction s as [|c s IH]; cbn [rfind contains].
  - now rewrite Hsep.
  - intros H. apply orb_false_elim in H as [Hp Hc]. now rewrite (IH Hc), Hp.
Qed.

Lemma rfind_comma_blank (a b : string) :
  contains ", " b = false -> rfind ", " (a +:+ ", " +:+ b) = Some (String.length a).
Proof.
  intros Hb. induction a as [|x a IH].
  - change (EmptyString +:+ ", " +:+ b) with (String "," (String " " b)).
    cbn [rfind]. rewrite (rfind_absent ", " b eq_refl Hb). now destruct b.
  - rewrite app_cons_str. cbn [rfind]. now rewrite IH.
Qed.

Lemma rsplit_key (o c s : string) :
  contains ", " c = false -> contains ", " s = false ->
  rsplit ", " 2 (o +:+ ", " +:+ c +:+ ", " +:+ s) = [o; c; s].
Proof.
  intros Hc Hs. cbn [rsplit].
  replace (o +:+ ", " +:+ c +:+ ", " +:+ s) with ((o +:+ ", " +:+ c) +:+ ", " +:+ s)
    by now rewrite !app_assoc_str.
  rewrite (rfind_comma_blank _ s Hs), take_app_length.
  rewrite (rfind_comma_blank o c Hc), take_app_length.
  replace (String.length (o +:+ ", " +:+ c) + String.length ", ")
    with (String.length ((o +:+ ", " +:+ c) +:+ ", "))
    by now rewrite (length_app_str _ ", ").
  replace (String.length o + String.length ", ") with (String.length (o +:+ ", "))
    by now rewrite (length_app_str _ ", ").
  rewrite <- (app_assoc_str (o +:+ ", " +:+ c) ", " s), drop_app_length.
  rewrite <- (app_assoc_str o ", " c), drop_app_length.
  reflexivity.
Qed.

(** *** The separator survives neither in the city nor in the state *)

Lemma char_upper_comma c : char_upper c = ","%char <-> c = ","%char.
Proof. destruct c as [[] [] [] [] [] [] [] []]; vm_compute; split; congruence. Qed.

Lemma char_upper_blank c : char_upper c = " "%char <-> c = " "%char.
Proof. destruct c as [[] [] [] [] [] [] [] []]; vm_compute; split; congruence. Qed.

Lemma prefix_comma_blank s :
  String.prefix ", " s = true <-> exists t, s = String "," (String " " t).
Proof.
  split.
  - destruct s as [|a [|b t]]; cbn [String.prefix]; try discriminate.
    + destruct (ascii_dec "," a); discriminate.
    + destruct (ascii_dec "," a) as [<-|]; [|discriminate].
      destruct (ascii_dec " " b) as [<-|]; [|discriminate]. eauto.
  - intros [t ->]. now destruct t.
Qed.

Lemma prefix_comma_blank_upper s :
  String.prefix ", " (upper s) = String.prefix ", " s.
Proof.
  destruct (String.prefix ", " s) eqn:E.
  - apply prefix_comma_blank in E as [t ->]. apply prefix_comma_blank.
    exists (upper t). reflexivity.
  - destruct (String.prefix ", " (upper s)) eqn:E'; [|reflexivity].
    apply prefix_comma_blank in E' as [t Ht].
    destruct s as [|a [|b u]]; try discriminate.
    cbn [upper map_chars] in Ht. injection Ht as Ha Hb _.
    apply char_upper_comma in Ha as ->. apply char_upper_blank in Hb as ->.
    rewrite <- E. symmetry. apply prefix_comma_blank. eauto.
Qed.

Lemma contains_comma_blank_upper s : contains ", " (upper s) = contains ", " s.
Proof.
  induction s as [|c s IH]; [reflexivity|].
  change (upper (String c s)) with (String (char_upper c) (upper s)).
  cbn [contains]. rewrite IH. f_equal.
  apply (prefix_comma_blank_upper (String c s)).
Qed.

Lemma contains_lstrip sep s : contains sep s = false -> contains sep (lstrip s) = false.
Proof.
  induction s as [|c s IH]; [trivial|]. cbn [lstrip]. intros H.
  destruct (is_space c); [|exact H]. apply IH. eapply contains_tail; eauto.
Qed.

Lemma rstrip_head s x r : rstrip s = String x r -> exists t, s = String x t.
Proof.
  destruct s as [|c s]; [discriminate|]. cbn [rstrip].
  destruct (_ && _); [discriminate|]. intros [= -> _]. eauto.
Qed.

Lemma contains_comma_blank_rstrip s :
  contains ", " s = false -> contains ", " (rstrip s) = false.
Proof.
  induction s as [|c s IH]; [trivial|]. intros H. cbn [rstrip].
  destruct (_ && _); [reflexivity|].
  cbn [contains] in H. apply orb_false_elim in H as [Hp Hc].
  cbn [contains]. rewrite (IH Hc), orb_false_r.
  destruct (String.prefix ", " (String c (rstrip s))) eqn:E; [|reflexivity].
  apply prefix_comma_blank in E as [t Ht]. injection Ht as -> Hr.
  apply rstrip_head in Hr as [u ->]. rewrite <- Hp. symmetry.
  apply prefix_comma_blank. eauto.
Qed.

Lemma contains_comma_blank_upper_strip v :
  contains ", " (py_str v) = false -> contains ", " (upper_strip_or_empty v) = false.
Proof.
  intros H. unfold upper_strip_or_empty. destruct (isna v); [reflexivity|].
  unfold strip. apply contains_comma_blank_rstrip, contains_lstrip.
  now rewrite contains_comma_blank_upper.
Qed.

(** *** Properties of every character of a string *)

Lemma all_chars_app P a b : all_chars P (a +:+ b) <-> all_chars P a /\ all_chars P b.
Proof.
  induction a as [|x a IH]; [cbn; tauto|]. rewrite app_cons_str. cbn [all_chars].
  rewrite IH. tauto.
Qed.

Lemma all_chars_lstrip P s : all_chars P s -> all_chars P (lstrip s).
Proof.
  induction s as [|c s IH]; [trivial|]. cbn [lstrip]. intros H.
  destruct (is_space c); [apply IH, H|exact H].
Qed.

Lemma all_chars_rstrip P s : all_chars P s -> all_chars P (rstrip s).
Proof.
  induction s as [|c s IH]; [trivial|]. cbn [rstrip]. intros [Hc Hs].
  destruct (_ && _); [exact I|]. split; [exact Hc|now apply IH].
Qed.

Lemma all_chars_strip P s : all_chars P s -> all_chars P (strip s).
Proof. intros H. now apply all_chars_rstrip, all_chars_lstrip. Qed.

Lemma all_chars_replace_scan P old new s : forall skip,
  all_chars P new -> all_chars P s -> all_chars P (replace_scan old new s skip).
Proof.
  induction s as [|c s IH]; intros skip Hnew Hs; [exact I|].
  destruct Hs as [Hc Hs]. cbn [replace_scan]. destruct skip as [|n].
  - destruct (String.prefix old (String c s)).
    + apply all_chars_app. split; [exact Hnew|now apply IH].
    + split; [exact Hc|now apply IH].
  - now apply IH.
Qed.

Lemma all_chars_intersperse P new s :
  all_chars P new -> all_chars P s -> all_chars P (intersperse new s).
Proof.
  intros Hnew. induction s as [|c s IH]; [trivial|]. intros [Hc Hs].
  cbn [intersperse all_chars]. split; [exact Hc|].
  apply all_chars_app. split; [exact Hnew|now apply IH].
Qed.

Lemma all_chars_replace P old new s :
  all_chars P new -> all_chars P s -> all_chars P (replace old new s).
Proof.
  intros Hnew Hs. unfold replace. destruct (is_empty old).
  - apply all_chars_app. split; [exact Hnew|now apply all_chars_intersperse].
  - now apply all_chars_replace_scan.
Qed.

Lemma all_chars_apply_replacements P rs : forall s,
  Forall (fun r => all_chars P r.2) rs -> all_chars P s ->
  all_chars P (apply_replacements rs s).
Proof.
  unfold apply_replacements.
  induction rs as [|r rs IH]; intros s Hrs Hs; [exact Hs|].
  inversion Hrs; subst. cbn [foldl]. apply IH; [assumption|].
  now apply all_chars_replace.
Qed.

Lemma all_chars_split_ws P s : all_chars P s -> Forall (all_chars P) (split_ws s).
Proof.
  induction s as [|c s IH]; [constructor|]. intros [Hc Hs]. cbn [split_ws].
  specialize (IH Hs). destruct (is_space c); [exact IH|].
  destruct s as [|c' s']; [repeat constructor; exact Hc|].
  destruct (is_space c').
  - constructor; [split; [exact Hc|exact I]|exact IH].
  - destruct (split_ws (String c' s')) as [|w ws]; [repeat constructor; exact Hc|].
    inversion IH; subst. constructor; [split; assumption|assumption].
Qed.

Lemma all_chars_join P ws :
  P " "%char -> Forall (all_chars P) ws -> all_chars P (join " " ws).
Proof.
  intros Hb. induction 1 as [|w ws Hw Hws IH]; [exact I|].
  cbn [join]. destruct ws as [|w' ws']; [exact Hw|].
  apply all_chars_app. split; [exact Hw|].
  apply (all_chars_app P " "). split; [split; [exact Hb|exact I]|exact IH].
Qed.

Lemma all_chars_upper s : all_chars (fun c => char_upper c = c) (upper s).
Proof.
  induction s as [|c s IH]; [exact I|]. split; [|exact IH].
  destruct c as [[] [] [] [] [] [] [] []]; reflexivity.
Qed.

Lemma upper_fixed s : all_chars (fun c => char_upper c = c) s -> upper s = s.
Proof.
  induction s as [|c s IH]; [reflexivity|]. intros [Hc Hs].
  change (upper (String c s)) with (String (char_upper c) (upper s)).
  now rewrite Hc, IH.
Qed.

Lemma has_char_absent c s : all_chars (fun x => x <> c) s <-> has_char c s = false.
Proof.
  induction s as [|x s IH]; [cbn; tauto|]. cbn [all_chars has_char].
  rewrite IH. destruct (Ascii.eqb_spec x c); cbn; split; try tauto; intuition congruence.
Qed.

(** Removing a character leaves none of it. *)
Lemma replace_removes c s :
  all_chars (fun x => x <> c) (replace (String c EmptyString) EmptyString s).
Proof.
  unfold replace. cbn [is_empty String.length Nat.sub].
  induction s as [|x s IH]; [exact I|]. cbn [replace_scan String.prefix].
  destruct (ascii_dec c x) as [<-|Hne].
  - destruct s; exact IH.
  - split; [congruence|exact IH].
Qed.

(** A string without a character of [old] holds no occurrence of [old]. *)
Lemma prefix_needs_char c old s :
  has_char c old = true -> all_chars (fun x => x <> c) s -> String.prefix old s = false.
Proof.
  revert s. induction old as [|a old IH]; intros s Hold Hs; [discriminate|].
  destruct s as [|b s]; [reflexivity|]. cbn [String.prefix].
  destruct Hs as [Hb Hs]. destruct (ascii_dec a b) as [<-|]; [|reflexivity].
  cbn [has_char] in Hold. destruct (Ascii.eqb_spec a c) as [->|]; [congruence|].
  now apply IH.
Qed.

Lemma replace_absent c old new s :
  has_char c old = true -> all_chars (fun x => x <> c) s -> replace old new s = s.
Proof.
  intros Hold. unfold replace.
  destruct old as [|a old]; [discriminate|]. cbn [is_empty].
  induction s as [|x s IH]; [reflexivity|]. intros Hs. cbn [replace_scan].
  rewrite (prefix_needs_char c _ _ Hold Hs). destruct Hs as [_ Hs]. now rewrite IH.
Qed.

(** *** Words and single blanks *)

Lemma split_ws_words s : Forall word (split_ws s).
Proof.
  induction s as [|c s IH]; [constructor|]. cbn [split_ws].
  destruct (is_space c) eqn:Ec; [exact IH|].
  assert (word (String c EmptyString)) as Hc by (split; [discriminate|now split]).
  destruct s as [|c' s']; [now repeat constructor|].
  destruct (is_space c'); [now constructor|].
  destruct (split_ws (String c' s')) as [|w ws]; [now repeat constructor|].
  inversion IH as [|? ? [_ Hw] Hws]; subst.
  constructor; [|exact Hws]. split; [discriminate|now split].
Qed.

Lemma split_ws_word_app w t :
  word w -> starts_blank t -> split_ws (w +:+ t) = w :: split_ws t.
Proof.
  intros [Hne Hw] Ht. induction w as [|c w IH]; [congruence|].
  destruct Hw as [Hc Hw]. rewrite app_cons_str. cbn [split_ws]. rewrite Hc.
  destruct w as [|c2 w2].
  - rewrite app_nil_l_str. destruct t as [|c' t']; [reflexivity|].
    cbn [starts_blank] in Ht. now rewrite Ht.
  - rewrite app_cons_str. destruct Hw as [Hc2 Hw2]. rewrite Hc2.
    rewrite <- app_cons_str. rewrite IH; [reflexivity|discriminate|now split].
Qed.

Lemma split_ws_join ws : Forall word ws -> split_ws (join " " ws) = ws.
Proof.
  induction 1 as [|w ws Hw Hws IH]; [reflexivity|]. cbn [join].
  destruct ws as [|w' ws'].
  - rewrite <- (app_nil_r_str w) at 1. now rewrite split_ws_word_app.
  - rewrite split_ws_word_app; [|exact Hw|reflexivity].
    f_equal. exact IH.
Qed.

Lemma join_nonempty w ws : word w -> join " " (w :: ws) <> EmptyString.
Proof.
  intros [Hne _]. cbn [join]. destruct ws; [exact Hne|].
  destruct w; [congruence|discriminate].
Qed.

Lemma join_starts_clean ws : Forall word ws -> starts_clean (join " " ws).
Proof.
  destruct 1 as [|w ws [Hne Hw] _]; [exact I|]. cbn [join].
  destruct w as [|c w]; [congruence|]. destruct Hw as [Hc _].
  destruct ws; exact Hc.
Qed.

Lemma lstrip_fixed s : starts_clean s -> lstrip s = s.
Proof. destruct s as [|c s]; [reflexivity|]. cbn. now intros ->. Qed.

Lemma lstrip_starts_clean s : starts_clean (lstrip s).
Proof.
  induction s as [|c s IH]; [exact I|]. cbn [lstrip].
  destruct (is_space c) eqn:E; [exact IH|exact E].
Qed.

Lemma rstrip_starts_clean s : starts_clean s -> starts_clean (rstrip s).
Proof.
  destruct s as [|c s]; [trivial|]. cbn [starts_clean rstrip]. intros Hc.
  rewrite Hc, andb_false_r. exact Hc.
Qed.

Lemma rstrip_idem s : rstrip (rstrip s) = rstrip s.
Proof.
  induction s as [|c s IH]; [reflexivity|]. cbn [rstrip].
  destruct (is_empty (rstrip s) && is_space c) eqn:E; [reflexivity|].
  cbn [rstrip]. now rewrite IH, E.
Qed.

Lemma strip_idem s : strip (strip s) = strip s.
Proof.
  unfold strip. rewrite (lstrip_fixed (rstrip (lstrip s))).
  - apply rstrip_idem.
  - apply rstrip_starts_clean, lstrip_starts_clean.
Qed.

Lemma rstrip_word_app w t :
  all_chars (fun c => is_space c = false) w -> rstrip (w +:+ t) = w +:+ rstrip t.
Proof.
  induction w as [|c w IH]; [reflexivity|]. intros [Hc Hw].
  rewrite !app_cons_str. cbn [rstrip]. now rewrite Hc, andb_false_r, IH.
Qed.

Lemma rstrip_join ws : Forall word ws -> rstrip (join " " ws) = join " " ws.
Proof.
  induction 1 as [|w ws Hw Hws IH]; [reflexivity|]. cbn [join].
  destruct ws as [|w' ws'].
  - rewrite <- (app_nil_r_str w) at 1. rewrite rstrip_word_app by apply Hw.
    apply app_nil_r_str.
  - rewrite rstrip_word_app by apply Hw. f_equal.
    change (" " +:+ join " " (w' :: ws')) with (String " " (join " " (w' :: ws'))).
    cbn [rstrip]. rewrite IH.
    inversion Hws; subst.
    destruct (join " " (w' :: ws')) eqn:E; [|reflexivity].
    exfalso. eapply join_nonempty; eauto.
Qed.

Lemma strip_join ws : Forall word ws -> strip (join " " ws) = join " " ws.
Proof.
  intros H. unfold strip. rewrite lstrip_fixed by now apply join_starts_clean.
  now apply rstrip_join.
Qed.

(** *** The normaliser *)

Lemma apply_replacements_absent rs : forall s,
  Forall (fun r => has_char "." r.1 = true \/ has_char "," r.1 = true) rs ->
  all_chars (fun x => x <> "."%char) s -> all_chars (fun x => x <> ","%char) s ->
  apply_replacements rs s = s.
Proof.
  unfold apply_replacements.
  induction rs as [|r rs IH]; intros s Hrs Hdot Hcomma; [reflexivity|].
  inversion Hrs as [|? ? Hr Hrest]; subst. cbn [foldl].
  assert (replace r.1 r.2 s = s) as ->; [|now apply IH].
  destruct Hr as [Hr|Hr]; eapply replace_absent; eauto.
Qed.

Lemma replacements_need_punctuation :
  Forall (fun r => has_char "." r.1 = true \/ has_char "," r.1 = true) replacements.
Proof. repeat constructor; ((left; reflexivity) || (right; reflexivity)). Qed.

Lemma replacements_upper_case :
  Forall (fun r => all_chars (fun c => char_upper c = c) r.2) replacements.
Proof. repeat constructor. Qed.

Lemma apply_replacements_ends_removing s :
  exists z, apply_replacements replacements s
            = replace "." EmptyString (replace "," EmptyString z).
Proof. eexists. reflexivity. Qed.

Lemma normalize_org_name_normal v : normal_name (normalize_org_name v).
Proof.
  unfold normalize_org_name. destruct (isna v).
  { split; try exact I. exists []. split; [constructor|reflexivity]. }
  set (s := strip (upper (py_str v))).
  split.
  - apply all_chars_join; [reflexivity|]. apply all_chars_split_ws.
    apply all_chars_apply_replacements; [apply replacements_upper_case|].
    apply all_chars_strip, all_chars_upper.
  - apply all_chars_join; [discriminate|]. apply all_chars_split_ws.
    destruct (apply_replacements_ends_removing s) as [z ->].
    apply replace_removes.
  - apply all_chars_join; [discriminate|]. apply all_chars_split_ws.
    destruct (apply_replacements_ends_removing s) as [z ->].
    apply all_chars_replace; [exact I|apply replace_removes].
  - eexists. split; [apply split_ws_words|reflexivity].
Qed.

Lemma normalize_org_name_fixed y :
  normal_name y -> normalize_org_name (PStr y) = y.
Proof.
  intros [Hup Hdot Hcomma (ws & Hws & ->)].
  unfold normalize_org_name. cbn [isna py_str].
  rewrite (upper_fixed _ Hup), (strip_join _ Hws).
  rewrite (apply_replacements_absent _ _ replacements_need_punctuation Hdot Hcomma).
  now rewrite split_ws_join.
Qed.

Lemma normalize_org_name_idem v :
  normalize_org_name (PStr (normalize_org_name v)) = normalize_org_name v.
Proof. apply normalize_org_name_fixed, normalize_org_name_normal. Qed.

Lemma upper_strip_or_empty_idem v :
  upper_strip_or_empty (PStr (upper_strip_or_empty v)) = upper_strip_or_empty v.
Proof.
  unfold upper_strip_or_empty at 1. cbn [isna py_str].
  unfold upper_strip_or_empty. destruct (isna v); [reflexivity|].
  rewrite upper_fixed by apply all_chars_strip, all_chars_upper.
  apply strip_idem.
Qed.

Lemma create_facility_key_idem org_name city state :
  create_facility_key (PStr (normalize_org_name org_name))
    (PStr (upper_strip_or_empty city)) (PStr (upper_strip_or_empty state))
  = create_facility_key org_name city state.
Proof.
  unfold create_facility_key.
  now rewrite normalize_org_name_idem, !upper_strip_or_empty_idem.
Qed.

(** C7.  Normalisation is idempotent: normalising a normalised organisation
    name gives it back, and the key built from the components of a key (the
    normalised organisation name, the city and the state as they stand in
    the key) is that key. *)
Theorem normalization_idempotent (org_name city state : pyval) :
  normalize_org_name (PStr (normalize_org_name org_name)) = normalize_org_name org_name
  /\ (forall k,
        create_facility_key org_name city state = Some k ->
        create_facility_key (PStr (normalize_org_name org_name))
          (PStr (upper_strip_or_empty city)) (PStr (upper_strip_or_empty state))
        = Some k)
  /\ create_facility_key (PStr (normalize_org_name org_name))
       (PStr (upper_strip_or_empty city)) (PStr (upper_strip_or_empty state))
     = create_facility_key org_name city state.
Proof.
  pose proof (create_facility_key_idem org_name city state) as H.
  split; [apply normalize_org_name_idem|]. split; [|exact H].
  intros k Hk. now rewrite H.
Qed.

Lemma normalization_idempotent_witness :
  create_facility_key (PStr "ACME HEALTH INC") (PStr "SPRINGFIELD") (PStr "IL")
  = Some "ACME HEALTH INC, SPRINGFIELD, IL".
Proof.
  exact (proj1 (proj2 (normalization_idempotent
           (PStr "  Acme Health, Inc. ") (PStr "Springfield ") (PStr "il")))
           "ACME HEALTH INC, SPRINGFIELD, IL" eq_refl).
Defined.

Lemma upper_strip_or_empty_truthy v :
  truthy (upper_strip_or_empty v) = true ->
  upper_strip_or_empty v = strip (upper (py_str v)).
Proof. unfold upper_strip_or_empty. destruct (isna v); [discriminate|reflexivity]. Qed.

Lemma create_facility_key_inv org_name city state k :
  create_facility_key org_name city state = Some k ->
  k = normalize_org_name org_name +:+ ", " +:+ upper_strip_or_empty city
      +:+ ", " +:+ upper_strip_or_empty state
  /\ truthy (normalize_org_name org_name) = true
  /\ truthy (upper_strip_or_empty city) = true
  /\ truthy (upper_strip_or_empty state) = true.
Proof.
  unfold create_facility_key.
  destruct (truthy (normalize_org_name org_name)); [|discriminate].
  destruct (truthy (upper_strip_or_empty city)); [|discriminate].
  destruct (truthy (upper_strip_or_empty state)); [|discriminate].
  intros [= <-]. now repeat split.
Qed.

(** C9.  A facility key splits back into its parts.  For a city and a state
    that do not contain ", ", the key of [create_facility_key], cut from the
    right at ", " into three, gives the normalised organisation name (which
    holds no comma), the city and the state in upper case and trimmed.  So
    [__init__] files the key under the location that [match_facility]
    computes for the same city and state, with the normalised name as the
    stored name, and [load_email_formats] stores the key unchanged. *)
Theorem facility_key_round_trip (org_name city state : pyval) (k : string) :
  contains ", " (py_str city) = false ->
  contains ", " (py_str state) = false ->
  create_facility_key org_name city state = Some k ->
  let org := normalize_org_name org_name in
  let location := strip (upper (py_str city)) +:+ ", " +:+ strip (upper (py_str state)) in
  has_char "," org = false
  /\ rsplit ", " 2 k = [org; strip (upper (py_str city)); strip (upper (py_str state))]
  /\ (forall by_location : gmap string (list candidate),
        init_step by_location k !! location
        = Some (default [] (by_location !! location) ++ [Candidate k org]))
  /\ (forall (table : list (string * format_info)) (value : email_format),
        load_step table (k, value) = dict_set table k (FormatInfo k value)).
Proof.
  intros Hcity Hstate Hk org location.
  destruct (create_facility_key_inv _ _ _ _ Hk) as (Heq & Ho & Hc & Hs).
  pose proof (contains_comma_blank_upper_strip city Hcity) as Hc'.
  pose proof (contains_comma_blank_upper_strip state Hstate) as Hs'.
  pose proof (upper_strip_or_empty_truthy city Hc) as Ec.
  pose proof (upper_strip_or_empty_truthy state Hs) as Es.
  assert (rsplit ", " 2 k = [org; strip (upper (py_str city)); strip (upper (py_str state))])
    as Hsplit.
  { rewrite Heq, <- Ec, <- Es. now apply rsplit_key. }
  split; [|split; [exact Hsplit|split]].
  - apply has_char_absent, normalize_org_name_normal.
  - intros by_location. unfold init_step. rewrite Hsplit. fold location.
    destruct (by_location !! location) as [cs|] eqn:E.
    + rewrite lookup_insert_eq, E. reflexivity.
    + rewrite !lookup_insert_eq. reflexivity.
  - intros table value. unfold load_step. cbn [fst snd]. rewrite Hsplit.
    pose proof (create_facility_key_idem org_name city state) as Hidem.
    rewrite Ec, Es in Hidem. fold org in Hidem. rewrite Hidem, Hk.
    now rewrite (create_facility_key_truthy _ _ _ _ Hk).
Qed.

Lemma facility_key_round_trip_witness :
  has_char "," "ST MARY'S HOSPITAL INC" = false
  /\ rsplit ", " 2 "ST MARY'S HOSPITAL INC, ST. LOUIS, MO"
     = ["ST MARY'S HOSPITAL INC"; "ST. LOUIS"; "MO"].
Proof.
  pose proof (facility_key_round_trip
                (PStr "St. Mary's Hospital, Inc.") (PStr " St. Louis") (PStr "mo")
                "ST MARY'S HOSPITAL INC, ST. LOUIS, MO" eq_refl eq_refl eq_refl) as H.
  cbv zeta in H. destruct H as (H1 & H2 & _). split; [exact H1|exact H2].
Defined.

(* ================================================================== *)
(** * Further properties *)
(* ================================================================== *)

(** ** Cutting a key *)

Lemma prefix_split sep s :
  String.prefix sep s = true -> s = sep +:+ drop (String.length sep) s.
Proof.
  revert s. induction sep as [|a sep IH]; intros s H; [now destruct s|].
  destruct s as [|b s]; [discriminate|]. cbn [String.prefix] in H.
  destruct (ascii_dec a b) as [<-|]; [|discriminate].
  rewrite app_cons_str. cbn [String.length drop]. f_equal. now apply IH.
Qed.

Lemma contains_drop sep n : forall s,
  contains sep s = false -> contains sep (drop n s) = false.
Proof.
  induction n as [|n IH]; intros s H; [now destruct s|].
  destruct s as [|c s]; [exact H|]. cbn [drop]. apply IH.
  eapply contains_tail; eauto.
Qed.

Lemma rfind_None_absent sep s : rfind sep s = None -> contains sep s = false.
Proof.
  induction s as [|c s IH]; cbn [rfind contains].
  - destruct sep; [discriminate|reflexivity].
  - destruct (rfind sep s); [discriminate|].
    destruct (String.prefix sep (String c s)); [discriminate|].
    intros _. now rewrite IH.
Qed.

(** [rfind] returns the last occurrence: the string is cut there, and what
    follows the occurrence holds no other one. *)
Lemma rfind_Some sep s i :
  is_empty sep = false ->
  rfind sep s = Some i ->
  s = take i s +:+ sep +:+ drop (i + String.length sep) s
  /\ contains sep (drop (i + String.length sep) s) = false.
Proof.
  intros Hsep. revert i. induction s as [|c s IH]; intros i; cbn [rfind].
  - now rewrite Hsep.
  - destruct (rfind sep s) as [j|] eqn:E.
    + intros [= <-]. destruct (IH j eq_refl) as [Hs Hc].
      cbn [take drop Nat.add]. rewrite app_cons_str. split; [now f_equal|exact Hc].
    + destruct (String.prefix sep (String c s)) eqn:Hp; [|discriminate].
      intros [= <-]. cbn [take Nat.add]. rewrite app_nil_l_str.
      split; [now apply prefix_split|].
      destruct sep as [|a sep]; [discriminate|]. cbn [String.length drop].
      apply contains_drop. now apply rfind_None_absent.
Qed.

(** A key that [rsplit] cuts in three is its three parts joined by ", ",
    and neither the second nor the third part holds a ", ". *)
Lemma rsplit_three key org city state :
  rsplit ", " 2 key = [org; city; state] ->
  key = org +:+ ", " +:+ city +:+ ", " +:+ state
  /\ contains ", " city = false /\ contains ", " state = false.
Proof.
  cbn [rsplit]. destruct (rfind ", " key) as [i|] eqn:Ei; [|discriminate].
  destruct (rfind ", " (take i key)) as [j|] eqn:Ej; [|discriminate].
  cbn [app]. intros [= <- <- <-].
  destruct (rfind_Some ", " key i eq_refl Ei) as [Hkey Hstate].
  destruct (rfind_Some ", " (take i key) j eq_refl Ej) as [Hhead Hcity].
  split; [|split; assumption].
  rewrite Hkey at 1. rewrite Hhead at 1. now rewrite !app_assoc_str.
Qed.

(** ** The location buckets *)

Lemma init_step_lookup (acc : gmap string (list candidate)) key loc :
  init_step acc key !! loc =
  match parse_key key with
  | Some (loc0, org) =>
      if String.eqb loc0 loc
      then Some (default [] (acc !! loc) ++ [Candidate key org])
      else acc !! loc
  | None => acc !! loc
  end.
Proof.
  unfold init_step, parse_key.
  destruct (rsplit ", " 2 key) as [|org [|city [|state [|? ?]]]]; try reflexivity.
  set (loc0 := city +:+ ", " +:+ state).
  destruct (String.eqb_spec loc0 loc) as [<-|Hne].
  - rewrite lookup_insert_eq. destruct (acc !! loc0) eqn:E; [now rewrite E|].
    now rewrite lookup_insert_eq.
  - rewrite lookup_insert_ne by exact Hne.
    destruct (acc !! loc0); [reflexivity|]. now rewrite lookup_insert_ne.
Qed.

Lemma init_buckets keys : forall (acc : gmap string (list candidate)) loc,
  foldl init_step acc keys !! loc =
  match bucket_of keys loc with
  | [] => acc !! loc
  | cs => Some (default [] (acc !! loc) ++ cs)
  end.
Proof.
  induction keys as [|key keys IH]; intros acc loc; [reflexivity|].
  cbn [foldl bucket_of]. rewrite IH, init_step_lookup.
  destruct (parse_key key) as [[loc0 org]|]; [|reflexivity].
  destruct (String.eqb loc0 loc); [|reflexivity].
  cbn [default from_option]. unfold id.
  destruct (bucket_of keys loc); [reflexivity|]. now rewrite <- app_assoc.
Qed.

Lemma bucket_of_elem keys loc c :
  c ∈ bucket_of keys loc <->
  cand_key c ∈ keys /\ parse_key (cand_key c) = Some (loc, cand_org_name c).
Proof.
  induction keys as [|key keys IH]; cbn [bucket_of].
  - split; [intros H; now apply elem_of_nil in H|].
    intros [H _]. now apply elem_of_nil in H.
  - rewrite elem_of_cons.
    destruct (parse_key key) as [[loc0 org]|] eqn:E.
    + destruct (String.eqb_spec loc0 loc) as [->|Hne].
      * rewrite elem_of_cons, IH. split.
        -- intros [->|[H1 H2]]; [cbn; split; [now left|exact E]|].
           split; [now right|exact H2].
        -- intros [[Hk|Hk] Hp]; [|right; now split].
           left. destruct c as [k o]. cbn in *. subst k. rewrite E in Hp.
           now injection Hp as <-.
      * rewrite IH. split; [intros [H1 H2]; split; [now right|exact H2]|].
        intros [[Hk|Hk] Hp]; [|now split].
        rewrite Hk, E in Hp. congruence.
    + rewrite IH. split; [intros [H1 H2]; split; [now right|exact H2]|].
      intros [[Hk|Hk] Hp]; [|now split].
      rewrite Hk, E in Hp. discriminate.
Qed.

Lemma facilities_by_location_eq (table : list (string * format_info)) thr loc :
  facilities_by_location (FacilityMatcher__init__ table thr) !! loc =
  match bucket_of (map fst table) loc with
  | [] => None
  | cs => Some cs
  end.
Proof.
  cbn [FacilityMatcher__init__ facilities_by_location].
  rewrite init_buckets, lookup_empty. now destruct (bucket_of _ loc).
Qed.

(** X1.  [__init__] files every key of the table that splits in three under
    the location made of its last two parts, with its first part as the
    stored name, in the order of the table; a key that does not split in
    three is filed nowhere, and a location without such a key has no
    bucket. *)
Theorem buckets_hold_the_keys_of_their_location
    (table : list (string * format_info)) (thr : Q) (location : string) :
  let buckets := facilities_by_location (FacilityMatcher__init__ table thr) in
  buckets !! location
  = (match bucket_of (map fst table) location with [] => None | cs => Some cs end)
  /\ (forall c, c ∈ default [] (buckets !! location) <->
                cand_key c ∈ map fst table
                /\ parse_key (cand_key c) = Some (location, cand_org_name c))
  /\ (forall key org, parse_key key = Some (location, org) ->
        key = org +:+ ", " +:+ location)
  /\ buckets !! location <> Some [].
Proof.
  intros buckets. subst buckets. rewrite facilities_by_location_eq.
  split; [reflexivity|]. split; [|split].
  - intros c. rewrite <- bucket_of_elem.
    now destruct (bucket_of (map fst table) location).
  - intros key org. unfold parse_key.
    destruct (rsplit ", " 2 key) as [|o [|c [|s [|? ?]]]] eqn:E; try discriminate.
    intros [= <- <-]. now destruct (rsplit_three _ _ _ _ E) as [-> _].
  - now destruct (bucket_of (map fst table) location).
Qed.

(** ** What a match can be *)

Lemma fuzzy_exact_Some formats normalized_org candidates r :
  fuzzy_exact formats normalized_org candidates = Some r ->
  exists c, c ∈ candidates /\ cand_org_name c = normalized_org
            /\ dict_get formats (cand_key c) = Some (mr_format_info r)
            /\ matched_key r = cand_key c
            /\ mr_match_type r = "fuzzy_exact" /\ mr_match_score r = 1%Q.
Proof.
  induction candidates as [|c cs IH]; cbn [fuzzy_exact]; [discriminate|].
  destruct (String.eqb_spec normalized_org (cand_org_name c)) as [->|Hne].
  - destruct (dict_get formats (cand_key c)) as [fi|] eqn:E; [|discriminate].
    intros [= <-]. exists c. cbn. repeat split; try assumption. apply elem_of_cons. now left.
  - intros H. destruct (IH H) as (c' & Hin & Hrest). exists c'.
    split; [apply elem_of_cons; now right|exact Hrest].
Qed.

Lemma location_key_of_candidate (table : list (string * format_info)) thr loc cs c :
  facilities_by_location (FacilityMatcher__init__ table thr) !! loc = Some cs ->
  c ∈ cs ->
  cand_key c ∈ map fst table /\ cand_key c = cand_org_name c +:+ ", " +:+ loc.
Proof.
  rewrite facilities_by_location_eq. intros Hcs Hin.
  assert (c ∈ bucket_of (map fst table) loc) as Hb.
  { destruct (bucket_of (map fst table) loc); [discriminate|]. now injection Hcs as <-. }
  apply bucket_of_elem in Hb as [Hk Hp]. split; [exact Hk|].
  unfold parse_key in Hp.
  destruct (rsplit ", " 2 (cand_key c)) as [|o [|ci [|s [|? ?]]]] eqn:E; try discriminate.
  injection Hp as <- <-. now destruct (rsplit_three _ _ _ _ E) as [-> _].
Qed.

Lemma facility_key_location org_name city state k :
  create_facility_key org_name city state = Some k ->
  k = normalize_org_name org_name +:+ ", " +:+ location_of city state.
Proof.
  intros Hk. destruct (create_facility_key_inv _ _ _ _ Hk) as (-> & _ & Hc & Hs).
  unfold location_of.
  now rewrite (upper_strip_or_empty_truthy _ Hc), (upper_strip_or_empty_truthy _ Hs).
Qed.

Section MatchShape.

Variable tfidf_cosine : list string -> nat -> Q.
Variable table : list (string * format_info).
Variable thr : Q.

Lemma tfidf_tier_Some normalized_org candidates r :
  tfidf_tier tfidf_cosine (FacilityMatcher__init__ table thr) normalized_org candidates
  = Some r ->
  exists c, c ∈ candidates
            /\ dict_get table (cand_key c) = Some (mr_format_info r)
            /\ matched_key r = cand_key c
            /\ mr_match_type r = "tfidf" /\ (thr <= mr_match_score r)%Q.
Proof.
  unfold tfidf_tier. cbn [threshold email_formats FacilityMatcher__init__].
  destruct (Qle_bool thr _) eqn:Hq; [|discriminate].
  destruct (candidates !! _) as [c|] eqn:Hc; [|discriminate].
  destruct (dict_get table (cand_key c)) as [fi|] eqn:Hfi; [|discriminate].
  intros [= <-]. exists c. cbn. repeat split; try assumption.
  - eapply list_elem_of_lookup_2; eauto.
  - now apply Qle_bool_iff.
Qed.

(** The three shapes of a match. *)
Lemma match_facility_cases org_name city state r :
  match_facility tfidf_cosine (FacilityMatcher__init__ table thr) org_name city state
  = Some r ->
  dict_get table (matched_key r) = Some (mr_format_info r)
  /\ ((mr_match_type r = "exact" /\ mr_match_score r = 1%Q
       /\ create_facility_key org_name city state = Some (matched_key r))
      \/ (mr_match_type r = "fuzzy_exact" /\ mr_match_score r = 1%Q
          /\ matched_key r ∈ map fst table
          /\ matched_key r
             = normalize_org_name org_name +:+ ", " +:+ location_of city state
          /\ forall k, create_facility_key org_name city state = Some k ->
                       dict_get table k = None)
      \/ (mr_match_type r = "tfidf" /\ (thr <= mr_match_score r)%Q
          /\ matched_key r ∈ map fst table
          /\ exists org, matched_key r = org +:+ ", " +:+ location_of city state)).
Proof.
  unfold match_facility. cbn [email_formats FacilityMatcher__init__].
  destruct (create_facility_key org_name city state ≫= _) as [[k fi]|] eqn:E1.
  - intros [= <-]. cbn.
    destruct (create_facility_key org_name city state) as [k'|]; [|discriminate].
    cbn in E1. destruct (dict_get table k') as [fi'|] eqn:E; [|discriminate].
    injection E1 as <- <-. split; [exact E|]. left. now repeat split.
  - fold (location_of city state).
    destruct (facilities_by_location _ !! location_of city state) as [cs|] eqn:Hb;
      [|discriminate].
    destruct (fuzzy_exact table (normalize_org_name org_name) cs) as [r'|] eqn:Hf.
    + intros [= <-].
      destruct (fuzzy_exact_Some _ _ _ _ Hf) as (c & Hin & Ho & Hd & Hk & Ht & Hs).
      destruct (location_key_of_candidate _ _ _ _ _ Hb Hin) as [Hkeys Hkey].
      rewrite Hk. split; [exact Hd|]. right. left.
      repeat split; try assumption. { now rewrite Hkey, Ho. }
      intros k Hk'. rewrite Hk' in E1. cbn in E1.
      destruct (dict_get table k); [discriminate|reflexivity].
    + destruct (length cs =? 0); [discriminate|]. intros Ht.
      destruct (tfidf_tier_Some _ _ _ Ht) as (c & Hin & Hd & Hk & Hty & Hs).
      destruct (location_key_of_candidate _ _ _ _ _ Hb Hin) as [Hkeys Hkey].
      rewrite Hk. split; [exact Hd|]. right. right.
      repeat split; try assumption. eauto.
Qed.

(** X2.  A match is always an entry of the table, with the table's value
    for its key.  It is [exact] with score 1 and the input's own key, or
    [fuzzy_exact] with score 1, or [tfidf] with a score of at least the
    threshold; a match of the last two types lies in the city and state of
    the input: its key ends with the input's location. *)
Theorem match_is_a_table_entry_of_the_same_location
    (org_name city state : pyval) (r : match_result) :
  match_facility tfidf_cosine (FacilityMatcher__init__ table thr) org_name city state
  = Some r ->
  dict_get table (matched_key r) = Some (mr_format_info r)
  /\ ((mr_match_type r = "exact" /\ mr_match_score r = 1%Q
       /\ create_facility_key org_name city state = Some (matched_key r))
      \/ (mr_match_type r = "fuzzy_exact" /\ mr_match_score r = 1%Q
          /\ matched_key r
             = normalize_org_name org_name +:+ ", " +:+ location_of city state)
      \/ (mr_match_type r = "tfidf" /\ (thr <= mr_match_score r)%Q
          /\ exists org, matched_key r = org +:+ ", " +:+ location_of city state)).
Proof.
  intros H. destruct (match_facility_cases _ _ _ _ H) as [Hd Hcases].
  split; [exact Hd|].
  destruct Hcases as [H1|[(H1 & H2 & _ & H3 & _)|(H1 & H2 & _ & H3)]]; auto.
Qed.

(** X3.  When the input's key is not in the table and no key of the table
    lies in the input's city and state, the matcher returns [None] without
    comparing any names. *)
Theorem no_candidates_no_match (org_name city state : pyval) :
  (forall k, create_facility_key org_name city state = Some k -> k ∉ map fst table) ->
  Forall (fun key => forall org, parse_key key <> Some (location_of city state, org))
         (map fst table) ->
  match_facility tfidf_cosine (FacilityMatcher__init__ table thr) org_name city state
  = None.
Proof.
  intros Hexact Hloc. unfold match_facility. cbn [email_formats FacilityMatcher__init__].
  assert (create_facility_key org_name city state
            ≫= (fun k => pair k <$> dict_get table k) = None) as ->.
  { destruct (create_facility_key org_name city state) as [k|]; [|reflexivity].
    cbn. now rewrite (dict_get_None table k (Hexact k eq_refl)). }
  fold (location_of city state). rewrite facilities_by_location_eq.
  destruct (bucket_of (map fst table) (location_of city state)) as [|c cs] eqn:E;
    [reflexivity|].
  exfalso. assert (c ∈ bucket_of (map fst table) (location_of city state)) as Hc.
  { rewrite E. apply elem_of_cons. now left. }
  apply bucket_of_elem in Hc as [Hk Hp].
  rewrite Forall_forall in Hloc. exact (Hloc _ Hk _ Hp).
Qed.

Lemma match_types_with_key org_name city state k r :
  create_facility_key org_name city state = Some k ->
  match_facility tfidf_cosine (FacilityMatcher__init__ table thr) org_name city state
  = Some r ->
  (mr_match_type r = "exact" /\ matched_key r = k)
  \/ mr_match_type r = "tfidf".
Proof.
  intros Hk H. destruct (match_facility_cases _ _ _ _ H) as [Hd Hcases].
  destruct Hcases as [(H1 & _ & H3)|[(_ & _ & _ & Hkey & Hnone)|(H1 & _)]].
  - left. split; [exact H1|congruence].
  - exfalso. rewrite <- (facility_key_location _ _ _ _ Hk) in Hkey.
    rewrite Hkey, (Hnone k Hk) in Hd. discriminate.
  - now right.
Qed.

(** X4.  The fuzzy-exact tier never answers for an input that has a
    facility key: a candidate of the input's location whose stored name is
    the input's normalised name carries the input's own key, which tier 1
    has already looked up.  So a record that [process_single_record] matches
    is reported as [exact] or [tfidf]. *)
Theorem fuzzy_exact_needs_a_missing_key
    (org_name city state : pyval) (k : string) (r : match_result) :
  create_facility_key org_name city state = Some k ->
  match_facility tfidf_cosine (FacilityMatcher__init__ table thr) org_name city state
  = Some r ->
  (mr_match_type r = "exact" /\ matched_key r = k)
  \/ mr_match_type r = "tfidf".
Proof. apply match_types_with_key. Qed.


End MatchShape.

(** ** The statistics of a batch *)









(** ** Loading the format table *)

Lemma dict_set_keys {V : Type} (d : list (string * V)) k v k' :
  k' ∈ map fst (dict_set d k v) <-> k' = k \/ k' ∈ map fst d.
Proof.
  induction d as [|[k0 v0] d IH]; cbn [dict_set map fst].
  - rewrite elem_of_cons. reflexivity.
  - destruct (String.eqb_spec k0 k) as [->|Hne]; cbn [map fst];
      rewrite !elem_of_cons; [tauto|]. rewrite IH. tauto.
Qed.

Lemma dict_set_NoDup {V : Type} (d : list (string * V)) k v :
  NoDup (map fst d) -> NoDup (map fst (dict_set d k v)).
Proof.
  induction d as [|[k0 v0] d IH]; cbn [dict_set map fst]; intros H.
  - repeat constructor. intros H'. now apply elem_of_nil in H'.
  - apply NoDup_cons in H as [Hk0 Hd].
    destruct (String.eqb_spec k0 k) as [->|Hne]; cbn [map fst]; apply NoDup_cons.
    + now split.
    + split; [|now apply IH]. rewrite dict_set_keys. intros [?|?]; [congruence|tauto].
Qed.

Lemma dict_get_set_eq {V : Type} (d : list (string * V)) k v :
  dict_get (dict_set d k v) k = Some v.
Proof.
  induction d as [|[k0 v0] d IH]; cbn [dict_set dict_get].
  - now rewrite String.eqb_refl.
  - destruct (String.eqb k0 k) eqn:E; cbn [dict_get]; rewrite E; [reflexivity|exact IH].
Qed.

Lemma dict_get_set_ne {V : Type} (d : list (string * V)) k v k' :
  k' <> k -> dict_get (dict_set d k v) k' = dict_get d k'.
Proof.
  intros Hne. induction d as [|[k0 v0] d IH]; cbn [dict_set dict_get].
  - destruct (String.eqb_spec k k'); [congruence|reflexivity].
  - destruct (String.eqb_spec k0 k) as [->|Hk]; cbn [dict_get].
    + destruct (String.eqb_spec k k'); [congruence|reflexivity].
    + now rewrite IH.
Qed.

Lemma load_step_eq table key v :
  load_step table (key, v) =
  match normalized_key key with
  | Some k => dict_set table k (FormatInfo key v)
  | None => table
  end.
Proof.
  unfold load_step, normalized_key. cbn [fst snd].
  destruct (rsplit ", " 2 key) as [|o [|c [|s [|? ?]]]]; try reflexivity.
  destruct (create_facility_key _ _ _) as [k|] eqn:E; [|reflexivity].
  now rewrite (create_facility_key_truthy _ _ _ _ E).
Qed.

(** The cut of a facility key, for a city and a state without ", ". *)
Lemma facility_key_rsplit org_name city state k :
  contains ", " (py_str city) = false ->
  contains ", " (py_str state) = false ->
  create_facility_key org_name city state = Some k ->
  rsplit ", " 2 k
  = [normalize_org_name org_name; upper_strip_or_empty city; upper_strip_or_empty state].
Proof.
  intros Hc Hs Hk. destruct (create_facility_key_inv _ _ _ _ Hk) as (-> & _).
  apply rsplit_key; now apply contains_comma_blank_upper_strip.
Qed.

Lemma normalized_key_fixed key k : normalized_key key = Some k -> normalized_key k = Some k.
Proof.
  unfold normalized_key at 1.
  destruct (rsplit ", " 2 key) as [|o [|c [|s [|? ?]]]] eqn:E; try discriminate.
  destruct (rsplit_three _ _ _ _ E) as (_ & Hc & Hs). intros Hk.
  unfold normalized_key.
  rewrite (facility_key_rsplit (PStr o) (PStr c) (PStr s) k Hc Hs Hk).
  now rewrite create_facility_key_idem.
Qed.

Lemma load_step_keeps formats table key v :
  (key, v) ∈ formats -> loaded_from formats table ->
  loaded_from formats (load_step table (key, v)).
Proof.
  intros Hin [Hnd Hval]. rewrite load_step_eq.
  destruct (normalized_key key) as [k|] eqn:E; [|now split].
  split; [now apply dict_set_NoDup|].
  intros k' fi. destruct (decide (k' = k)) as [->|Hne].
  - rewrite dict_get_set_eq. intros [= <-]. cbn. now split.
  - rewrite dict_get_set_ne by exact Hne. apply Hval.
Qed.

Lemma load_loop_keeps formats todo : forall table,
  (forall kv, kv ∈ todo -> kv ∈ formats) -> loaded_from formats table ->
  loaded_from formats (foldl load_step table todo).
Proof.
  induction todo as [|[key v] todo IH]; intros table Hsub Hinv; [exact Hinv|].
  cbn [foldl]. apply IH.
  - intros kv Hkv. apply Hsub, elem_of_cons. now right.
  - apply load_step_keeps; [|exact Hinv]. apply Hsub, elem_of_cons. now left.
Qed.

Lemma load_loop_keys todo : forall table k,
  k ∈ map fst (foldl load_step table todo) <->
  k ∈ map fst table \/ exists key v, (key, v) ∈ todo /\ normalized_key key = Some k.
Proof.
  induction todo as [|[key v] todo IH]; intros table k; cbn [foldl].
  - split; [now left|]. intros [H|(key & v & H & _)]; [exact H|].
    now apply elem_of_nil in H.
  - rewrite IH, load_step_eq. split.
    + intros [H|(key' & v' & Hin & Hk)].
      * destruct (normalized_key key) as [k0|] eqn:E; [|now left].
        apply dict_set_keys in H as [->|H]; [|now left].
        right. exists key, v. split; [apply elem_of_cons; now left|exact E].
      * right. exists key', v'. split; [apply elem_of_cons; now right|exact Hk].
    + intros [H|(key' & v' & Hin & Hk)].
      * left. destruct (normalized_key key); [|exact H]. apply dict_set_keys. now right.
      * apply elem_of_cons in Hin as [[= -> ->]|Hin]; [|right; eauto].
        left. rewrite Hk. apply dict_set_keys. now left.
Qed.

(** X6.  The loaded table is a dict (no key twice).  Its keys are the
    normalised forms of the keys of the file: a key of the file that does not
    split in three, or has an empty part, is dropped.  Every key of the
    table is its own normalised form, every value records a key of the file
    that normalises to its key, and the organisation, city and state of any
    kept key of the file are matched by tier 1 with the key under which the
    entry is stored. *)
Theorem loaded_table_round_trip
    (tfidf_cosine : list string -> nat -> Q)
    (formats : list (string * email_format)) (thr : Q) :
  let table := load_email_formats formats in
  NoDup (map fst table)
  /\ (forall k, k ∈ map fst table <->
                exists key v, (key, v) ∈ formats /\ normalized_key key = Some k)
  /\ (forall k, k ∈ map fst table -> normalized_key k = Some k)
  /\ (forall k fi, dict_get table k = Some fi ->
        normalized_key (original_key fi) = Some k
        /\ (original_key fi, fi_record fi) ∈ formats)
  /\ (forall key v org city state k,
        (key, v) ∈ formats ->
        rsplit ", " 2 key = [org; city; state] ->
        create_facility_key (PStr org) (PStr city) (PStr state) = Some k ->
        exists fi,
          dict_get table k = Some fi
          /\ match_facility tfidf_cosine (FacilityMatcher__init__ table thr)
               (PStr org) (PStr city) (PStr state)
             = Some (MatchResult k "exact" 1 fi)).
Proof.
  intros table. subst table. unfold load_email_formats.
  assert (loaded_from formats (foldl load_step [] formats)) as [Hnd Hval].
  { apply load_loop_keeps; [auto|]. split; [constructor|]. intros ? ? H. discriminate. }
  assert (forall k, k ∈ map fst (foldl load_step [] formats) <->
                    exists key v, (key, v) ∈ formats /\ normalized_key key = Some k)
    as Hkeys.
  { intros k. rewrite load_loop_keys. split; [|now right].
    intros [H|H]; [now apply elem_of_nil in H|exact H]. }
  split; [exact Hnd|]. split; [exact Hkeys|]. split; [|split; [exact Hval|]].
  - intros k Hk. apply Hkeys in Hk as (key & v & _ & Hn).
    eapply normalized_key_fixed; eauto.
  - intros key v org city state k Hin Hsplit Hk.
    assert (k ∈ map fst (foldl load_step [] formats)) as Hmem.
    { apply Hkeys. exists key, v. split; [exact Hin|].
      unfold normalized_key. now rewrite Hsplit. }
    destruct (dict_get_Some _ _ Hmem) as [fi Hfi]. exists fi. split; [exact Hfi|].
    unfold match_facility. rewrite Hk. cbn [email_formats FacilityMatcher__init__].
    cbn [mbind option_bind]. now rewrite Hfi.
Qed.

(** ** What the extractor emits *)

Ltac tag_recognized :=
  apply list_elem_of_In; cbn; repeat ((left; reflexivity) || right).

Ltac one_fresh tac :=
  apply Forall_cons; split;
  [split; [cbn [ef_format snd]; tac|split; reflexivity]|constructor].

Lemma foldl_appends_Forall_in {A B : Type} (step : list A -> B -> list A)
    (P : A -> Prop) ps :
  (forall acc p, step acc p = acc ++ step [] p) ->
  Forall (fun p => Forall P (step [] p)) ps -> Forall P (foldl step [] ps).
Proof.
  intros Happ. induction 1 as [|p ps Hp _ IH]; cbn [foldl]; [constructor|].
  rewrite (foldl_appends step Happ). apply Forall_app. now split.
Qed.

Lemma infer_format_recognized local_part f :
  infer_format_from_local_part local_part = Some f -> f ∈ recognized_formats.
Proof.
  unfold infer_format_from_local_part.
  repeat match goal with
  | |- context [if ?b then _ else _] => destruct b
  | |- context [match ?l with [] => _ | _ :: _ => _ end] => destruct l
  end; intros [= <-]; tag_recognized.
Qed.

Lemma bracket_group_fresh text link :
  Forall (fresh_candidate link) (bracket_group text link).
Proof.
  apply foldl_appends_Forall_in; [intros; apply bracket_step_appends|].
  unfold bracket_patterns.
  repeat (apply Forall_cons; split; [|]); try (constructor; fail);
    unfold bracket_step; cbn [fst snd];
    (match goal with
     | |- context [Re.search true ?r text] => destruct (Re.search true r text)
     end; [|constructor]);
    (match goal with
     | |- context [if has_char ?c ?s then ?a else ?b] =>
         destruct (if has_char c s then a else b)
     end; [|constructor]);
    (match goal with
     | |- context [truthy ?s] => destruct (truthy s)
     end; [|constructor]);
    one_fresh tag_recognized.
Qed.

Lemma leadiq_group_fresh text link :
  Forall (fresh_candidate link) (leadiq_group text link).
Proof.
  apply foldl_appends_Forall_in; [intros; apply leadiq_step_appends|].
  unfold leadiq_patterns.
  repeat (apply Forall_cons; split; [|]); try (constructor; fail);
    unfold leadiq_step; cbn [fst snd];
    (match goal with
     | |- context [Re.search true ?r text] => destruct (Re.search true r text)
     end; [|constructor]);
    one_fresh tag_recognized.
Qed.

Lemma numbered_loop_over_fresh pats text link :
  Forall (fun p => p.2 ∈ recognized_formats) pats ->
  Forall (fresh_candidate link) (numbered_loop_over pats text link []).
Proof.
  induction 1 as [|p pats Hp _ IH]; cbn [numbered_loop_over]; [constructor|].
  destruct (Re.search true p.1 text); [|exact IH].
  one_fresh ltac:(exact Hp).
Qed.

Lemma numbered_group_fresh text link :
  Forall (fresh_candidate link) (numbered_group text link).
Proof.
  apply numbered_loop_over_fresh. unfold numbered_patterns.
  repeat (apply Forall_cons; split; [cbn [snd]; tag_recognized|]). constructor.
Qed.

Lemma fallback_loop_over_fresh ms link :
  Forall (fresh_candidate link) (fallback_loop_over ms link []).
Proof.
  induction ms as [|m ms IH]; cbn [fallback_loop_over]; [constructor|].
  destruct (infer_format_from_local_part _) as [f|] eqn:E; [|exact IH].
  destruct (truthy f); [|exact IH].
  one_fresh ltac:(eapply infer_format_recognized; eauto).
Qed.

Lemma extract_fresh text link :
  Forall (fresh_candidate link) (extract_formats_from_text_improved text link).
Proof.
  rewrite extract_formats_eq.
  assert (Forall (fresh_candidate link)
            (bracket_group text link ++ numbered_group text link
             ++ leadiq_group text link)) as H.
  { rewrite !Forall_app. split; [apply bracket_group_fresh|].
    split; [apply numbered_group_fresh|apply leadiq_group_fresh]. }
  destruct (bracket_group text link ++ _); [apply fallback_loop_over_fresh|exact H].
Qed.

Lemma extract_confidence text link :
  Forall (fun c => ef_confidence c = "high" \/ ef_confidence c = "medium")
         (extract_formats_from_text_improved text link).
Proof.
  rewrite extract_formats_eq.
  assert (Forall (fun c => ef_confidence c = "high")
            (bracket_group text link ++ numbered_group text link
             ++ leadiq_group text link)) as H.
  { rewrite !Forall_app. split; [apply bracket_group_high|].
    split; [apply numbered_loop_over_high|apply leadiq_group_high]. }
  destruct (bracket_group text link ++ _).
  - eapply Forall_impl; [apply fallback_loop_over_medium|]. cbn. auto.
  - eapply Forall_impl; [exact H|]. cbn. auto.
Qed.

Lemma generate_email_recognized first last email_format domain :
  email_format ∈ recognized_formats ->
  cleaned (PStr first) <> EmptyString -> cleaned (PStr last) <> EmptyString ->
  exists local,
    generate_email (PStr first) (PStr last) email_format domain
    = Some (local +:+ "@" +:+ domain).
Proof.
  intros Hrec Hf Hl. rewrite generate_email_eq. cbn [isna py_str orb].
  apply is_empty_false in Hf as Hf', Hl as Hl'. rewrite Hf', Hl'.
  assert (is_empty first = false) as ->.
  { apply is_empty_false. intros ->. now apply Hf. }
  assert (is_empty last = false) as ->.
  { apply is_empty_false. intros ->. now apply Hl. }
  cbn [orb]. destruct (dict_get_Some templates email_format Hrec) as [render ->].
  cbn. eauto.
Qed.

(** X7.  Every format the extractor returns carries a tag of the glossary,
    the given source link and no source type yet, and has confidence [high]
    or [medium].  So the generator never fails closed on an extracted
    format: for a first and a last name that each hold a letter it renders
    an address at the extracted domain. *)
Theorem extracted_formats_can_be_rendered (text source_link : string) :
  Forall (fresh_candidate source_link)
         (extract_formats_from_text_improved text source_link)
  /\ Forall (fun c => ef_confidence c = "high" \/ ef_confidence c = "medium")
            (extract_formats_from_text_improved text source_link)
  /\ (forall c first last,
        c ∈ extract_formats_from_text_improved text source_link ->
        cleaned (PStr first) <> EmptyString -> cleaned (PStr last) <> EmptyString ->
        exists local,
          generate_email (PStr first) (PStr last) (ef_format c) (ef_domain c)
          = Some (local +:+ "@" +:+ ef_domain c)).
Proof.
  split; [apply extract_fresh|]. split; [apply extract_confidence|].
  intros c first last Hc Hf Hl. apply generate_email_recognized; try assumption.
  pose proof (extract_fresh text source_link) as H. rewrite Forall_forall in H.
  apply (H c Hc).
Qed.

(** ** What the prioritiser selects and stores *)

Lemma with_source_type_stored f0 rest text link t :
  extract_formats_from_text_improved text link = f0 :: rest ->
  t = "answerBox" \/ t = "organic" ->
  stored_format (with_source_type f0 t).
Proof.
  intros He Ht.
  pose proof (extract_fresh text link) as Hf.
  pose proof (extract_confidence text link) as Hc.
  rewrite He in Hf, Hc. inversion Hf as [|? ? (Hfmt & _) _]; subst.
  inversion Hc as [|? ? Hconf _]; subst.
  split; [exact Hfmt|]. split; [|exact Hconf].
  cbn. destruct Ht as [-> | ->]; auto.
Qed.

Lemma organic_loop_stored organics : forall position b,
  (forall f, b.1 = Some f -> stored_format f) ->
  forall f, (organic_loop position organics b).1 = Some f -> stored_format f.
Proof.
  induction organics as [|o organics IH]; intros position b Hb; [exact Hb|].
  cbn [organic_loop]. apply IH. unfold organic_step.
  destruct (_ <? _); [|exact Hb].
  destruct (extract_formats_from_text_improved _ _) as [|f0 rest] eqn:E; [exact Hb|].
  cbn [fst]. intros f [= <-]. eapply with_source_type_stored; eauto.
Qed.

Lemma best_match_of_stored sr f : best_match_of sr = Some f -> stored_format f.
Proof.
  unfold best_match_of.
  assert (forall g, (answer_box_step sr (None, 0)).1 = Some g -> stored_format g) as Hab.
  { unfold answer_box_step. destruct (sr_answerBox sr) as [ab|]; [|discriminate].
    destruct (extract_formats_from_text_improved _ _) as [|f0 rest] eqn:E;
      [discriminate|].
    cbn [fst]. intros g [= <-]. eapply with_source_type_stored; eauto. }
  destruct (_ || _); [|apply Hab]. now apply organic_loop_stored.
Qed.

Lemma foldl_entry_step_from entries fac f : forall m : gmap string email_format,
  foldl entry_step m entries !! fac = Some f ->
  m !! fac = Some f
  \/ exists e sr, e ∈ entries /\ en_facility e = fac /\ en_results e = Some sr
                  /\ best_match_of sr = Some f.
Proof.
  induction entries as [|e entries IH]; intros m H; [now left|].
  cbn [foldl] in H. destruct (IH _ H) as [Hm|(e' & sr & Hin & Hrest)].
  - unfold entry_step in Hm. destruct (en_results e) as [sr|] eqn:Hsr; [|now left].
    destruct (best_match_of sr) as [bm|] eqn:Hbm; [|now left].
    destruct (decide (en_facility e = fac)) as [Heq|Hne].
    + rewrite Heq, lookup_insert_eq in Hm. injection Hm as ->.
      right. exists e, sr. split; [apply elem_of_cons; now left|auto].
    + rewrite lookup_insert_ne in Hm by exact Hne. now left.
  - right. exists e', sr. split; [apply elem_of_cons; now right|exact Hrest].
Qed.

(** X8.  Every format the prioritiser stores is the best match of a results
    object of that facility, carries a tag of the glossary, is marked
    [answerBox] or [organic], and has confidence [high] or [medium]. *)
Theorem stored_formats_are_marked_best_matches
    (results : list entry) (fac : string) (f : email_format) :
  extract_formats_from_serper_results results !! fac = Some f ->
  stored_format f
  /\ exists e sr, e ∈ results /\ en_facility e = fac /\ en_results e = Some sr
                  /\ best_match_of sr = Some f.
Proof.
  intros H. apply foldl_entry_step_from in H as [H|(e & sr & Hin & Hf & Hsr & Hb)].
  - rewrite lookup_empty in H. discriminate.
  - split; [eapply best_match_of_stored; eauto|]. exists e, sr. auto.
Qed.



(** ** Rendering and inferring *)

Lemma has_char_app c a b : has_char c (a +:+ b) = has_char c a || has_char c b.
Proof.
  induction a as [|x a IH]; [reflexivity|]. rewrite app_cons_str. cbn [has_char].
  now rewrite IH, orb_assoc.
Qed.

Lemma split_char_absent sep s : has_char sep s = false -> split_char sep s = [s].
Proof.
  induction s as [|c s IH]; [reflexivity|]. cbn [has_char split_char]. intros H.
  apply orb_false_elim in H as [Hc Hs]. now rewrite Hc, (IH Hs).
Qed.

Lemma split_char_once sep a b :
  has_char sep a = false -> has_char sep b = false ->
  split_char sep (a +:+ String sep b) = [a; b].
Proof.
  intros Ha Hb. induction a as [|c a IH].
  - rewrite app_nil_l_str. cbn [split_char]. rewrite Ascii.eqb_refl.
    now rewrite (split_char_absent _ _ Hb).
  - rewrite app_cons_str. cbn [has_char split_char] in *.
    apply orb_false_elim in Ha as [Hc Ha]. now rewrite Hc, (IH Ha).
Qed.

Lemma all_lower_lacks c s :
  is_lower c = false -> all_chars (fun x => is_lower x = true) s -> has_char c s = false.
Proof.
  intros Hc. induction s as [|x s IH]; [reflexivity|]. intros [Hx Hs].
  cbn [has_char]. rewrite (IH Hs), orb_false_r.
  destruct (Ascii.eqb_spec x c) as [->|]; [congruence|reflexivity].
Qed.

Lemma cleaned_all_lower v : all_chars (fun x => is_lower x = true) (cleaned v).
Proof.
  unfold cleaned. induction (py_str v) as [|c s IH]; [exact I|].
  cbn [letters]. destruct (is_lower c || is_upper c) eqn:E; [|exact IH].
  split; [|exact IH]. now rewrite is_lower_char_lower.
Qed.

Lemma infer_separated sep tag a b :
  (tag, sep) ∈ separator_templates ->
  all_chars (fun x => is_lower x = true) a ->
  all_chars (fun x => is_lower x = true) b ->
  1 < String.length a -> 1 < String.length b ->
  infer_format_from_local_part (a +:+ String sep b) = Some tag.
Proof.
  intros Hin Ha Hb Hla Hlb.
  assert (forall c, is_lower c = false ->
                    has_char c (a +:+ String sep b) = Ascii.eqb sep c) as Hhas.
  { intros c Hc. rewrite has_char_app. cbn [has_char].
    now rewrite (all_lower_lacks c a Hc Ha), (all_lower_lacks c b Hc Hb), orb_false_r. }
  assert (forall c, is_lower c = false -> c = sep ->
                    split_char c (a +:+ String sep b) = [a; b]) as Hsplit.
  { intros c Hc ->. apply split_char_once; now apply all_lower_lacks. }
  apply Nat.ltb_lt in Hla, Hlb.
  unfold infer_format_from_local_part.
  apply elem_of_cons in Hin as [[= -> ->]|Hin];
    [|apply elem_of_cons in Hin as [[= -> ->]|Hin];
      [|apply list_elem_of_singleton in Hin as [= -> ->]]];
    rewrite !Hhas by reflexivity; cbn [Ascii.eqb Bool.eqb];
    rewrite Hsplit by reflexivity; now rewrite Hla, Hlb.
Qed.

(** X10.  Inference undoes rendering for the three templates that write a
    separator: when the generator renders a first and a last name of more
    than one letter each with such a template, the local part of the address
    is the two cleaned names around the separator, and
    [infer_format_from_local_part] returns the template for it.  Whatever the
    local part, inference returns one of five tags only. *)
Theorem inference_recovers_separator_templates
    (first_name last_name : pyval) (domain tag : string) (sep : ascii) (e : string) :
  (tag, sep) ∈ separator_templates ->
  1 < String.length (cleaned first_name) ->
  1 < String.length (cleaned last_name) ->
  generate_email first_name last_name tag domain = Some e ->
  let local_part := cleaned first_name +:+ String sep (cleaned last_name) in
  e = local_part +:+ "@" +:+ domain
  /\ infer_format_from_local_part local_part = Some tag
  /\ (forall s f, infer_format_from_local_part s = Some f ->
        f ∈ ["[first].[last]"; "[first]_[last]"; "[first]-[last]";
             "[first_initial][last]"; "[first]"]).
Proof.
  intros Hin Hf Hl He local_part. split; [|split].
  - rewrite generate_email_eq in He.
    destruct (_ || _); [discriminate|].
    apply elem_of_cons in Hin as [[= -> ->]|Hin];
      [|apply elem_of_cons in Hin as [[= -> ->]|Hin];
        [|apply list_elem_of_singleton in Hin as [= -> ->]]];
      cbn in He; injection He as <-; unfold local_part;
      now rewrite !app_assoc_str.
  - apply infer_separated; try assumption; apply cleaned_all_lower.
  - intros s f. unfold infer_format_from_local_part.
    repeat match goal with
    | |- context [if ?b then _ else _] => destruct b
    | |- context [match ?l with [] => _ | _ :: _ => _ end] => destruct l
    end; intros [= <-]; apply list_elem_of_In; cbn; tauto.
Qed.

Lemma all_chars_impl' (P Q : ascii -> Prop) s :
  (forall c, P c -> Q c) -> all_chars P s -> all_chars Q s.
Proof.
  intros HPQ. induction s as [|c s IH]; [trivial|]. intros [Hc Hs].
  split; [now apply HPQ|now apply IH].
Qed.

Lemma all_chars_take P n : forall s, all_chars P s -> all_chars P (take n s).
Proof.
  induction n as [|n IH]; intros [|c s] H; try exact I.
  destruct H as [Hc Hs]. split; [exact Hc|now apply IH].
Qed.

Lemma app_nonempty_l a b : a <> EmptyString -> a +:+ b <> EmptyString.
Proof. destruct a; [congruence|discriminate]. Qed.

Lemma take_one_nonempty s : s <> EmptyString -> take 1 s <> EmptyString.
Proof. destruct s; [congruence|discriminate]. Qed.

(** The shape of a generated address. *)
Lemma generate_email_shape first_name last_name email_format domain e :
  generate_email first_name last_name email_format domain = Some e ->
  exists local_part,
    e = local_part +:+ "@" +:+ domain
    /\ local_part <> EmptyString
    /\ all_chars local_part_char local_part.
Proof.
  rewrite generate_email_eq.
  destruct (isna first_name || isna last_name || is_empty (py_str first_name)
            || is_empty (py_str last_name)); [discriminate|]. cbn [orb].
  destruct (is_empty (cleaned first_name)) eqn:Ef; [discriminate|].
  destruct (is_empty (cleaned last_name)) eqn:El; [discriminate|]. cbn [orb].
  apply is_empty_false in Ef, El.
  assert (all_chars local_part_char (cleaned first_name)) as Hf.
  { eapply all_chars_impl'; [|apply cleaned_all_lower]. intros c Hc. now left. }
  assert (all_chars local_part_char (cleaned last_name)) as Hl.
  { eapply all_chars_impl'; [|apply cleaned_all_lower]. intros c Hc. now left. }
  assert (forall c, c = "."%char \/ c = "_"%char \/ c = "-"%char ->
                    all_chars local_part_char (String c EmptyString)) as Hsep.
  { intros c Hc. split; [now right|exact I]. }
  unfold templates. cbn [dict_get].
  repeat match goal with
  | |- context [String.eqb ?t email_format] => destruct (String.eqb t email_format)
  end; cbn [fmap option_fmap option_map]; intros [= <-]; eexists; (split; [reflexivity|]); split;
    repeat first
      [ assumption
      | apply app_nonempty_l
      | apply take_one_nonempty
      | apply all_chars_take
      | apply (all_chars_take local_part_char 1 (cleaned first_name))
      | apply (all_chars_take local_part_char 1 (cleaned last_name))
      | apply all_chars_app; split
      | apply Hsep; tauto ].
Qed.

(** X11.  A generated address is a local part, the sign [@] and the given
    domain; the local part is not empty and holds only lower-case letters
    and the separators of the templates, whatever the names held. *)
Theorem generated_address_shape
    (first_name last_name : pyval) (email_format domain e : string) :
  generate_email first_name last_name email_format domain = Some e ->
  exists local_part,
    e = local_part +:+ "@" +:+ domain
    /\ local_part <> EmptyString
    /\ all_chars local_part_char local_part
    /\ has_char "@" local_part = false
    /\ has_char " " local_part = false.
Proof.
  intros H. destruct (generate_email_shape _ _ _ _ _ H) as (lp & He & Hne & Hall).
  exists lp. repeat split; try assumption.
  - apply has_char_absent. eapply all_chars_impl'; [|exact Hall].
    intros c [Hc|[->|[->| ->]]]; try discriminate. intros ->. discriminate.
  - apply has_char_absent. eapply all_chars_impl'; [|exact Hall].
    intros c [Hc|[->|[->| ->]]]; try discriminate. intros ->. discriminate.
Qed.

(** ** More on keys *)



(** X12.  A normalised organisation name is in upper case, holds no period
    and no comma, and is a sequence of words separated by single blanks, with
    no whitespace at either end. *)
Theorem normalized_name_shape (name : pyval) :
  let n := normalize_org_name name in
  upper n = n
  /\ has_char "." n = false
  /\ has_char "," n = false
  /\ strip n = n
  /\ exists ws, Forall word ws /\ n = join " " ws.
Proof.
  cbv zeta. destruct (normalize_org_name_normal name) as [Hup Hdot Hcomma Hws].
  split; [now apply upper_fixed|]. split; [now apply has_char_absent|].
  split; [now apply has_char_absent|]. split; [|exact Hws].
  destruct Hws as (ws & Hws & ->). now apply strip_join.
Qed.


Lemma is_space_char_upper c : is_space (char_upper c) = is_space c.
Proof. destruct c as [[] [] [] [] [] [] [] []]; reflexivity. Qed.

Lemma lstrip_blank s :
  all_chars (fun c => is_space c = true) s -> lstrip s = EmptyString.
Proof.
  induction s as [|c s IH]; [reflexivity|]. intros [Hc Hs]. cbn [lstrip].
  now rewrite Hc, IH.
Qed.

Lemma strip_upper_blank s :
  all_chars (fun c => is_space c = true) s -> strip (upper s) = EmptyString.
Proof.
  intros H. unfold strip. rewrite lstrip_blank; [reflexivity|].
  induction s as [|c s IH]; [exact I|]. destruct H as [Hc Hs].
  split; [now rewrite is_space_char_upper|now apply IH].
Qed.

Lemma upper_strip_or_empty_blank v : blank_cell v -> upper_strip_or_empty v = EmptyString.
Proof.
  unfold upper_strip_or_empty. intros [-> |H]; [reflexivity|].
  destruct (isna v); [reflexivity|]. now apply strip_upper_blank.
Qed.

Lemma normalize_org_name_blank v : blank_cell v -> normalize_org_name v = EmptyString.
Proof.
  unfold normalize_org_name. intros [-> |H]; [reflexivity|].
  destruct (isna v); [reflexivity|]. now rewrite (strip_upper_blank _ H).
Qed.

(** X14.  A record whose organisation, city or state is missing ([None] or
    NaN) or holds whitespace only has no facility key, and
    [process_single_record] returns it without any annotation and without
    consulting the table; the generator returns [None] for a first or last
    name that is missing or holds no letter. *)
Theorem blank_inputs_give_nothing
    (tfidf_cosine : list string -> nat -> Q) (i : nat) (r : row)
    (table : list (string * format_info)) (thr : Q) :
  (blank_cell (row_org_name r) \/ blank_cell (row_city r) \/ blank_cell (row_state r) ->
   create_facility_key (row_org_name r) (row_city r) (row_state r) = None
   /\ process_single_record tfidf_cosine (i, r) table thr
      = RecordResult i None None None None None None None)
  /\ (forall first_name last_name email_format domain,
        isna first_name = true \/ isna last_name = true
        \/ cleaned first_name = EmptyString \/ cleaned last_name = EmptyString ->
        generate_email first_name last_name email_format domain = None).
Proof.
  split.
  - intros H.
    assert (create_facility_key (row_org_name r) (row_city r) (row_state r) = None) as Hk.
    { unfold create_facility_key.
      destruct H as [H|[H|H]].
      - now rewrite (normalize_org_name_blank _ H).
      - rewrite (upper_strip_or_empty_blank _ H). cbn. now rewrite andb_false_r.
      - rewrite (upper_strip_or_empty_blank _ H). cbn. now rewrite andb_false_r. }
    split; [exact Hk|]. unfold process_single_record. now rewrite Hk.
  - intros first_name last_name email_format domain H. rewrite generate_email_eq.
    destruct H as [-> |[-> |[-> | ->]]]; cbn [is_empty]; now rewrite ?orb_true_r.
Qed.

(** ** Applying the formats to the doctor file *)

Lemma generate_email_truthy first_name last_name email_format domain e :
  extract_email_formats.generate_email first_name last_name email_format domain = Some e ->
  truthy e = true.
Proof.
  intros H. destruct (generate_email_shape _ _ _ _ _ H) as (lp & -> & Hne & _).
  destruct lp; [congruence|reflexivity].
Qed.

Lemma apply_step_eq (table : gmap string email_format) st row :
  apply_step table st row =
  ApplyState (as_rows st ++ [annotation_of table row])
    (as_emails_generated st + (if annotated (annotation_of table row) then 1 else 0))
    (if annotated (annotation_of table row)
     then {[py_str (csv_full_name_city_state row)]} ∪ as_facilities_with_emails st
     else as_facilities_with_emails st).
Proof.
  unfold apply_step, annotation_of, annotated.
  destruct (formats_lookup table _) as [fi|]; [|cbn; now rewrite Nat.add_0_r].
  destruct (extract_email_formats.generate_email _ _ _ _) as [e|] eqn:E;
    [|cbn; now rewrite Nat.add_0_r].
  now rewrite (generate_email_truthy _ _ _ _ _ E).
Qed.

Lemma annotated_key (table : gmap string email_format) row :
  annotated (annotation_of table row) = true ->
  exists k, csv_full_name_city_state row = PStr k /\ is_Some (table !! k).
Proof.
  unfold annotated, annotation_of, formats_lookup.
  destruct (csv_full_name_city_state row) as [| |k];
    try (intros H; apply bool_decide_eq_true_1 in H as [? H]; discriminate).
  destruct (table !! k) as [fi|] eqn:E.
  - intros _. exists k. split; [reflexivity|]. rewrite E. now exists fi.
  - intros H. apply bool_decide_eq_true_1 in H as [? H]. discriminate.
Qed.

Lemma apply_loop (table : gmap string email_format) rows : forall st,
  let st' := foldl (apply_step table) st rows in
  as_rows st' = as_rows st ++ map (annotation_of table) rows
  /\ as_emails_generated st'
     = as_emails_generated st + count_where annotated (map (annotation_of table) rows)
  /\ (forall k, k ∈ as_facilities_with_emails st' <->
        k ∈ as_facilities_with_emails st
        \/ exists row, row ∈ rows /\ csv_full_name_city_state row = PStr k
                       /\ annotated (annotation_of table row) = true)
  /\ size (as_facilities_with_emails st')
     <= size (as_facilities_with_emails st)
        + count_where annotated (map (annotation_of table) rows).
Proof.
  induction rows as [|row rows IH]; intros st; cbn [foldl map count_where].
  - rewrite app_nil_r, Nat.add_0_r. repeat split; try lia; [now left|].
    intros [H|(row & H & _)]; [exact H|now apply elem_of_nil in H].
  - destruct (IH (apply_step table st row)) as (H1 & H2 & H3 & H4).
    cbv zeta. rewrite H1, H2. clear H1 H2.
    rewrite apply_step_eq in *. cbn [as_rows as_emails_generated as_facilities_with_emails] in *.
    split; [now rewrite <- app_assoc|]. split; [lia|]. split.
    + intros k. rewrite H3. clear H3 H4.
      destruct (annotated (annotation_of table row)) eqn:Ha.
      * destruct (annotated_key _ _ Ha) as (k0 & Hk0 & _). rewrite Hk0. cbn [py_str].
        rewrite elem_of_union, elem_of_singleton. split.
        -- intros [[->|H]|(r' & Hin & Hr')]; [right|now left|right].
           ++ exists row. split; [apply elem_of_cons; now left|now split].
           ++ exists r'. split; [apply elem_of_cons; now right|exact Hr'].
        -- intros [H|(r' & Hin & Hk & Hr')]; [left; now right|].
           apply elem_of_cons in Hin as [->|Hin]; [|right; eauto].
           left. left. congruence.
      * split.
        -- intros [H|(r' & Hin & Hr')]; [now left|right].
           exists r'. split; [apply elem_of_cons; now right|exact Hr'].
        -- intros [H|(r' & Hin & Hk & Hr')]; [now left|].
           apply elem_of_cons in Hin as [->|Hin]; [congruence|right; eauto].
    + etransitivity; [exact H4|]. clear H3 H4.
      destruct (annotated (annotation_of table row)); [|lia].
      rewrite size_union_alt, size_singleton.
      pose proof (subseteq_size
                    (as_facilities_with_emails st ∖ {[py_str (csv_full_name_city_state row)]})
                    (as_facilities_with_emails st)) as Hs.
      assert (as_facilities_with_emails st ∖ {[py_str (csv_full_name_city_state row)]}
              ⊆ as_facilities_with_emails st) as Hsub.
      { intros x Hx. now apply elem_of_difference in Hx as [Hx _]. }
      specialize (Hs Hsub). lia.
Qed.

Lemma count_where_le {A : Type} (p : A -> bool) l : count_where p l <= length l.
Proof. induction l as [|x l IH]; cbn; [lia|]. destruct (p x); lia. Qed.

(** X15.  [apply_formats_to_csv] leaves one annotation per row, in order.
    A row gets an address exactly when its facility key is a key of the
    table and the generator renders its names; the five added columns are
    then all set, and all empty otherwise.  [emails_generated] is the number
    of rows with an address, and [facilities_with_emails] holds exactly the
    keys of those rows: keys of the table, no more of them than addresses. *)
Theorem apply_formats_to_csv_counts
    (rows : list csv_row) (table : gmap string email_format) :
  let st := apply_formats_to_csv rows table in
  as_rows st = map (annotation_of table) rows
  /\ as_emails_generated st = count_where annotated (as_rows st)
  /\ (forall k, k ∈ as_facilities_with_emails st <->
        exists row, row ∈ rows /\ csv_full_name_city_state row = PStr k
                    /\ annotated (annotation_of table row) = true)
  /\ (forall k, k ∈ as_facilities_with_emails st -> is_Some (table !! k))
  /\ size (as_facilities_with_emails st) <= as_emails_generated st
  /\ as_emails_generated st <= length rows
  /\ Forall (fun a =>
        a = CsvAnnotation None None None None None
        \/ exists e f d s c, a = CsvAnnotation (Some e) (Some f) (Some d) (Some s) (Some c))
       (as_rows st).
Proof.
  intros st. subst st. unfold apply_formats_to_csv.
  destruct (apply_loop table rows (ApplyState [] 0 ∅)) as (H1 & H2 & H3 & H4).
  cbv zeta in *. cbn [as_rows as_emails_generated as_facilities_with_emails] in *.
  rewrite app_nil_l in H1. rewrite size_empty in H4. cbn [Nat.add] in *.
  assert (forall k, k ∈ as_facilities_with_emails
                        (foldl (apply_step table) (ApplyState [] 0 ∅) rows) <->
            exists row, row ∈ rows /\ csv_full_name_city_state row = PStr k
                        /\ annotated (annotation_of table row) = true) as Hfac.
  { intros k. rewrite H3. split; [|now right].
    intros [H|H]; [now apply elem_of_empty in H|exact H]. }
  split; [exact H1|]. split; [now rewrite H1|]. split; [exact Hfac|].
  split; [|split; [now rewrite H2|split]].
  - intros k Hk. apply Hfac in Hk as (row & _ & Hkey & Ha).
    destruct (annotated_key _ _ Ha) as (k' & Hk' & Hsome). congruence.
  - rewrite H2. etransitivity; [apply count_where_le|]. now rewrite length_map.
  - rewrite H1. apply Forall_forall. intros a Ha.
    apply list_elem_of_In, in_map_iff in Ha as (row & <- & _).
    unfold annotation_of. destruct (formats_lookup table _) as [fi|]; [|now left].
    destruct (extract_email_formats.generate_email _ _ _ _); [|now left].
    right. do 5 eexists. reflexivity.
Qed.

(** ** Instances *)

Lemma buckets_hold_the_keys_of_their_location_witness :
  facilities_by_location (FacilityMatcher__init__ springfield_table (85 # 100))
    !! "SPRINGFIELD, IL" = Some springfield_bucket
  /\ "ACME HEALTH INC, SPRINGFIELD, IL" = "ACME HEALTH INC" +:+ ", " +:+ "SPRINGFIELD, IL".
Proof.
  pose proof (buckets_hold_the_keys_of_their_location springfield_table (85 # 100)
                "SPRINGFIELD, IL") as (H1 & _ & H3 & _).
  split; [exact H1|]. apply H3. vm_compute. reflexivity.
Defined.

Lemma match_is_a_table_entry_of_the_same_location_witness :
  let r := MatchResult "ACME HEALTH, SPRINGFIELD, IL" "tfidf" (85 # 100)
             (FormatInfo "Acme Health, Springfield, IL" acme_record) in
  dict_get springfield_table (matched_key r) = Some (mr_format_info r)
  /\ ((mr_match_type r = "exact" /\ mr_match_score r = 1%Q
       /\ create_facility_key (PStr "Acme Helth") (PStr "Springfield") (PStr "IL")
          = Some (matched_key r))
      \/ (mr_match_type r = "fuzzy_exact" /\ mr_match_score r = 1%Q
          /\ matched_key r
             = normalize_org_name (PStr "Acme Helth") +:+ ", "
               +:+ location_of (PStr "Springfield") (PStr "IL"))
      \/ (mr_match_type r = "tfidf" /\ (85 # 100 <= mr_match_score r)%Q
          /\ exists org, matched_key r
                         = org +:+ ", " +:+ location_of (PStr "Springfield") (PStr "IL"))).
Proof.
  apply (match_is_a_table_entry_of_the_same_location (constant_score (85 # 100))
           springfield_table (85 # 100)
           (PStr "Acme Helth") (PStr "Springfield") (PStr "IL")).
  vm_compute. reflexivity.
Defined.

Lemma no_candidates_no_match_witness :
  match_facility (constant_score 1) (FacilityMatcher__init__ springfield_table (85 # 100))
    (PStr "Acme Health") (PStr "Dover") (PStr "DE") = None.
Proof.
  apply no_candidates_no_match.
  - intros k Hk. vm_compute in Hk. injection Hk as <-. vm_compute.
    intros H. apply elem_of_cons in H as [H|H]; [discriminate|].
    apply elem_of_cons in H as [H|H]; [discriminate|]. now apply elem_of_nil in H.
  - repeat constructor; intros org; vm_compute; discriminate.
Defined.

Lemma fuzzy_exact_needs_a_missing_key_witness :
  (mr_match_type (MatchResult "ACME HEALTH INC, SPRINGFIELD, IL" "exact" 1
                    (FormatInfo "Acme Health Inc, Springfield, IL" acme_record)) = "exact"
   /\ "ACME HEALTH INC, SPRINGFIELD, IL" = "ACME HEALTH INC, SPRINGFIELD, IL")
  \/ mr_match_type (MatchResult "ACME HEALTH INC, SPRINGFIELD, IL" "exact" 1
                      (FormatInfo "Acme Health Inc, Springfield, IL" acme_record)) = "tfidf".
Proof.
  apply (fuzzy_exact_needs_a_missing_key favour_second springfield_table (85 # 100)
           (PStr "Acme Health, Inc.") (PStr "Springfield") (PStr "IL")
           "ACME HEALTH INC, SPRINGFIELD, IL"
           (MatchResult "ACME HEALTH INC, SPRINGFIELD, IL" "exact" 1
              (FormatInfo "Acme Health Inc, Springfield, IL" acme_record)));
    vm_compute; reflexivity.
Defined.


Lemma loaded_table_round_trip_witness :
  exists fi,
    dict_get (load_email_formats sample_formats) "ACME HEALTH INC, SPRINGFIELD, IL" = Some fi
    /\ match_facility (constant_score 0)
         (FacilityMatcher__init__ (load_email_formats sample_formats) (85 # 100))
         (PStr "Acme Health, Inc.") (PStr "Springfield") (PStr "IL")
       = Some (MatchResult "ACME HEALTH INC, SPRINGFIELD, IL" "exact" 1 fi).
Proof.
  pose proof (loaded_table_round_trip (constant_score 0) sample_formats (85 # 100))
    as (_ & _ & _ & _ & H).
  apply (H "Acme Health, Inc., Springfield, IL" acme_record).
  - apply elem_of_cons. now left.
  - vm_compute. reflexivity.
  - vm_compute. reflexivity.
Defined.

Lemma extracted_formats_can_be_rendered_witness :
  exists local,
    generate_email (PStr "Mary-Jane") (PStr "O'Brien") "[first_initial][last]" "acme.com"
    = Some (local +:+ "@" +:+ "acme.com").
Proof.
  pose proof (extracted_formats_can_be_rendered ranked_text EmptyString) as (_ & _ & H).
  apply (H (EmailFormat "[first_initial][last]" "acme.com" "jdoe@acme.com"
              EmptyString "high" None) "Mary-Jane" "O'Brien").
  - vm_compute. apply elem_of_cons. now left.
  - vm_compute. discriminate.
  - vm_compute. discriminate.
Defined.

Lemma stored_formats_are_marked_best_matches_witness :
  let f := EmailFormat "[first].[last]" "acme.com" "jane.doe@acme.com"
             "https://rocketreach.co/acme" "high" (Some "answerBox") in
  stored_format f
  /\ exists e sr, e ∈ [acme_entry; quiet_entry]
                  /\ en_facility e = "Acme Health, Springfield, IL"
                  /\ en_results e = Some sr /\ best_match_of sr = Some f.
Proof.
  apply (stored_formats_are_marked_best_matches [acme_entry; quiet_entry]
           "Acme Health, Springfield, IL").
  vm_compute. reflexivity.
Defined.


Lemma inference_recovers_separator_templates_witness :
  "maryjane_obrien@acme.com" = ("maryjane" +:+ String "_" "obrien") +:+ "@" +:+ "acme.com"
  /\ infer_format_from_local_part ("maryjane" +:+ String "_" "obrien")
     = Some "[first]_[last]".
Proof.
  pose proof (inference_recovers_separator_templates
                (PStr "Mary-Jane") (PStr "O'Brien") "acme.com" "[first]_[last]" "_"
                "maryjane_obrien@acme.com") as H.
  cbv zeta in H. destruct H as (H1 & H2 & _).
  - apply elem_of_cons. right. apply elem_of_cons. now left.
  - vm_compute. lia.
  - vm_compute. lia.
  - vm_compute. reflexivity.
  - split; [exact H1|exact H2].
Defined.

Lemma generated_address_shape_witness :
  exists local_part,
    "mobrien@acme.com" = local_part +:+ "@" +:+ "acme.com"
    /\ local_part <> EmptyString
    /\ all_chars local_part_char local_part
    /\ has_char "@" local_part = false
    /\ has_char " " local_part = false.
Proof.
  apply (generated_address_shape (PStr " Mary-Jane ") (PStr "O'Brien")
           "[first_initial][last]" "acme.com").
  vm_compute. reflexivity.
Defined.

Lemma blank_inputs_give_nothing_witness :
  create_facility_key (PStr "Acme Health") PNaN (PStr "IL") = None
  /\ process_single_record (constant_score 1)
       (3, Row (PStr "Acme Health") PNaN (PStr "IL") (PStr "Jane") (PStr "Doe"))
       springfield_table (85 # 100)
     = RecordResult 3 None None None None None None None.
Proof.
  apply (proj1 (blank_inputs_give_nothing (constant_score 1) 3
                  (Row (PStr "Acme Health") PNaN (PStr "IL") (PStr "Jane") (PStr "Doe"))
                  springfield_table (85 # 100))).
  right. left. left. reflexivity.
Defined.

Lemma apply_formats_to_csv_counts_witness :
  is_Some (extract_formats_from_serper_results [acme_entry; quiet_entry]
             !! "Acme Health, Springfield, IL").
Proof.
  pose proof (apply_formats_to_csv_counts sample_csv_rows
                (extract_formats_from_serper_results [acme_entry; quiet_entry]))
    as (_ & _ & Hfac & Htable & _).
  cbv zeta in *. apply Htable, Hfac.
  exists (CsvRow (PStr "Acme Health, Springfield, IL") (PStr "Jane") (PStr "Doe")).
  split; [apply elem_of_cons; now left|]. split; [reflexivity|].
  vm_compute. reflexivity.
Defined.
